(** * A fixed-step ODE integrator: [KalmanFilter::NumericalIntegration]

    Shallow embedding of [NumericalIntegration.h] and verification of its
    specification.  The C++ class is a template over a functor type, a value
    type, a scalar type and an integration mode; the embedding keeps the four
    template parameters:

    - the operations the template body applies to [Scalar], [ValueType] and
      [Functor] are the fields of three operation classes;
    - the class itself is a record with the two data members [h] and [f];
    - the two stepping loops are [for] loops over the locals that live
      across iterations, run with a bound on the number of iterations
      (the loops need not terminate);
    - the template is then instantiated twice: with exact arithmetic (any
      Archimedean ordered field, vectors in any module over it) and with
      IEEE-754 binary64 numbers ([double]).

    The statements about what [integrate] computes, about non-positive time
    spans, about an invalid method selector and about determinism (C1, C2,
    C5, C6, C8) are proved for every instance of the template.  The
    statements that count steps, promise termination or compare final
    states exactly (C3, C4, C7, C9, C10) are proved for exact arithmetic;
    they fail on doubles, where each comes with a concrete run that
    contradicts it.  The second half of C4, that the loop never ends for
    [h <= 0] and [timeSpan > 0], holds on doubles as well and is proved
    there too.

    Part VIII adds properties of the same code that the specification does
    not state: what the iteration count depends on, where and how often
    the functor is called, equilibria, splitting and rescaling of the time
    span, the amplification factors on the test equation [x' = lam * x],
    and the behaviour on a step that the time span absorbs and on the
    special values of doubles. *)

From Stdlib Require Import ZArith Lia Floats.
From mathcomp Require Import boot order algebra.

Set Implicit Arguments.
Unset Strict Implicit.
Unset Printing Implicit Defensive.

Import Order.Theory GRing.Theory Num.Theory.

(* ===================================================================== *)
(** * Part I: the program                                                 *)
(* ===================================================================== *)

Module KalmanFilter.

(** [enum IntegrationMode { Euler, RungeKutta };]  An unscoped enumeration:
    its enumerators are the integer constants 0 and 1, and [switch (mode)]
    compares integer values, so that a selector outside the two enumerators
    reaches the [default:] label. *)
Definition IntegrationMode := int.
Definition Euler : IntegrationMode := 0.
Definition RungeKutta : IntegrationMode := 1.

(** ** Template parameters *)

(** What the template body asks of [Scalar]: conversion of the [int]
    literals [0], [2] and [6], [time_span -= h], [h / 2] and
    [time_span > 0]. *)
Class ScalarOps (Scalar : Type) := {
  of_int : int -> Scalar;
  ssub : Scalar -> Scalar -> Scalar;
  sdiv : Scalar -> Scalar -> Scalar;
  sgt : Scalar -> Scalar -> bool
}.

(** What it asks of [ValueType]: [x + y] (also behind [x += y]) and the
    product [s * x] of a scalar and a value. *)
Class ValueOps (Scalar ValueType : Type) := {
  vadd : ValueType -> ValueType -> ValueType;
  vscale : Scalar -> ValueType -> ValueType
}.

(** What it asks of [Functor]: a default constructor (the member [f] is
    default-initialised by the constructor of the class) and the call
    [f(x, dx)], which writes the derivative at [x] into [dx].  The member is
    not [const] and [integrate] is not a [const] method, so a call may also
    change the functor object: [call] returns the functor after the call
    together with the value written to the output argument. *)
Class FunctorOps (Functor ValueType : Type) := {
  functor_new : Functor;
  call : Functor -> ValueType -> Functor * ValueType
}.

(** ** The [for] statement

    [for (init; cond; incr) body], after [init]: test [cond]; when it holds
    run [body], then [incr], and test again.  [fuel] bounds the number of
    iterations: the result is [None] when the loop needs more than [fuel]
    of them.  The first component of the result counts the iterations
    executed (a ghost counter, starting from [iters]). *)
Section ForLoop.
Variable St : Type.
Variables (cond : St -> bool) (body incr : St -> St).

Fixpoint for_loop (fuel iters : nat) (s : St) : option (nat * St) :=
  if cond s then
    if fuel is fuel'.+1 then for_loop fuel' iters.+1 (incr (body s)) else None
  else Some (iters, s).

End ForLoop.

(** ** The class template *)
Section Template.
Context {Scalar ValueType Functor : Type}.
Context {SO : ScalarOps Scalar} {VO : ValueOps Scalar ValueType}.
Context {FO : FunctorOps Functor ValueType}.

(** The data members: [const Scalar h; Functor f;]. *)
Record NumericalIntegration := mkNumericalIntegration {
  h : Scalar;
  f : Functor
}.

(** [NumericalIntegration(Scalar time_step) : h(time_step) {}] *)
Definition new (time_step : Scalar) : NumericalIntegration :=
  {| h := time_step; f := functor_new |}.

(** The locals that live across the iterations of either loop: the by-value
    parameter [time_span], the reference [x] (bound to [xout]) and the
    member [f].  The locals [dx] and [k1] to [k4] are written by the functor
    before they are read in every iteration. *)
Definition frame : Type := Scalar * ValueType * Functor.

(** [time_span > 0] *)
Definition loop_cond (s : frame) : bool :=
  let: (time_span, _, _) := s in sgt time_span (of_int 0).

(** [time_span -= h] *)
Definition loop_incr (h : Scalar) (s : frame) : frame :=
  let: (time_span, x, f) := s in (ssub time_span h, x, f).

(** [f(x, dx); x += h * dx;] *)
Definition euler_body (h : Scalar) (s : frame) : frame :=
  let: (time_span, x, f) := s in
  let: (f, dx) := call f x in
  (time_span, vadd x (vscale h dx), f).

(** [f(x, k1); f(x + h / 2 * k1, k2); f(x + h / 2 * k2, k3);
     f(x + h * k3, k4); x += h / 6 * (k1 + 2 * k2 + 2 * k3 + k4);] *)
Definition rk4_body (h : Scalar) (s : frame) : frame :=
  let: (time_span, x, f) := s in
  let: (f, k1) := call f x in
  let: (f, k2) := call f (vadd x (vscale (sdiv h (of_int 2)) k1)) in
  let: (f, k3) := call f (vadd x (vscale (sdiv h (of_int 2)) k2)) in
  let: (f, k4) := call f (vadd x (vscale h k3)) in
  (time_span,
   vadd x (vscale (sdiv h (of_int 6))
             (vadd (vadd (vadd k1 (vscale (of_int 2) k2))
                         (vscale (of_int 2) k3)) k4)),
   f).

(** What a method leaves behind when it returns: the object and the
    content of the output argument [xout]. *)
Definition outcome : Type := NumericalIntegration * ValueType.

Definition leave (this : NumericalIntegration) (r : nat * frame)
  : nat * outcome :=
  let: (iters, (_, x, f')) := r in
  (iters, ({| h := h this; f := f' |}, x)).

(** [ForwardEuler(time_span, x0, xout)].  The initial statement [x = x0] of
    the loop overwrites [xout], whose previous content is never read (if
    [x0] and [xout] are the same object the assignment changes nothing, and
    [x0] is not read again).  The result carries the number of iterations
    of the loop. *)
Definition ForwardEuler (fuel : nat) (this : NumericalIntegration)
    (time_span : Scalar) (x0 xout : ValueType) : option (nat * outcome) :=
  let x := x0 in
  omap (leave this)
       (for_loop loop_cond (euler_body (h this)) (loop_incr (h this))
                 fuel 0 (time_span, x, f this)).

(** [RK4(time_span, x0, xout)] *)
Definition RK4 (fuel : nat) (this : NumericalIntegration)
    (time_span : Scalar) (x0 xout : ValueType) : option (nat * outcome) :=
  let x := x0 in
  omap (leave this)
       (for_loop loop_cond (rk4_body (h this)) (loop_incr (h this))
                 fuel 0 (time_span, x, f this)).

(** [integrate(time_span, x0, xout)], for the template argument [mode]. *)
Definition integrate (mode : IntegrationMode) (fuel : nat)
    (this : NumericalIntegration) (time_span : Scalar)
    (x0 xout : ValueType) : option outcome :=
  if mode == Euler then omap snd (ForwardEuler fuel this time_span x0 xout)
  else if mode == RungeKutta then omap snd (RK4 fuel this time_span x0 xout)
  else Some (this, xout).

End Template.

Arguments NumericalIntegration : clear implicits.
Arguments frame : clear implicits.
Arguments outcome : clear implicits.

End KalmanFilter.

Import KalmanFilter.

(* ===================================================================== *)
(** * Part II: the algorithms of the specification                        *)
(* ===================================================================== *)

(** The specification describes [integrate] as a function of a derivative
    function [f], a step size [h], a time span and an initial state.  The
    two recurrences below follow its words; they never mention a functor
    object, a reference or a [for] statement.  The definitions after them
    name what the theorems speak about: one step as a map on states, the
    remaining span after some decrements, the number of iterations. *)
Section Recurrences.
Context {Scalar ValueType : Type}.
Context {SO : ScalarOps Scalar} {VO : ValueOps Scalar ValueType}.
Variable f : ValueType -> ValueType.
Variable h : Scalar.

(** "Initialize working state [x = initialState], remaining span
    [t = timeSpan].  While [t > 0]: evaluate [dx = f(x)]; update
    [x = x + h * dx]; decrement [t -= h].  Return [x]." *)
Fixpoint euler_recurrence (fuel : nat) (t : Scalar) (x : ValueType)
  : option ValueType :=
  if sgt t (of_int 0) then
    if fuel is fuel'.+1 then
      let dx := f x in
      let x := vadd x (vscale h dx) in
      let t := ssub t h in
      euler_recurrence fuel' t x
    else None
  else Some x.

(** "While [t > 0]: [k1 = f(x)]; [k2 = f(x + (h/2) * k1)];
    [k3 = f(x + (h/2) * k2)]; [k4 = f(x + h * k3)];
    [x = x + (h/6) * (k1 + 2*k2 + 2*k3 + k4)]; [t -= h].  Return [x]." *)
Fixpoint rk4_recurrence (fuel : nat) (t : Scalar) (x : ValueType)
  : option ValueType :=
  if sgt t (of_int 0) then
    if fuel is fuel'.+1 then
      let half := sdiv h (of_int 2) in
      let sixth := sdiv h (of_int 6) in
      let two := of_int 2 in
      let k1 := f x in
      let k2 := f (vadd x (vscale half k1)) in
      let k3 := f (vadd x (vscale half k2)) in
      let k4 := f (vadd x (vscale h k3)) in
      let x := vadd x (vscale sixth
                 (vadd (vadd (vadd k1 (vscale two k2)) (vscale two k3)) k4)) in
      let t := ssub t h in
      rk4_recurrence fuel' t x
    else None
  else Some x.

(** One step of either method, as a map on states. *)
Definition euler_step (x : ValueType) : ValueType :=
  vadd x (vscale h (f x)).

Definition rk4_step (x : ValueType) : ValueType :=
  let k1 := f x in
  let k2 := f (vadd x (vscale (sdiv h (of_int 2)) k1)) in
  let k3 := f (vadd x (vscale (sdiv h (of_int 2)) k2)) in
  let k4 := f (vadd x (vscale h k3)) in
  vadd x (vscale (sdiv h (of_int 6))
            (vadd (vadd (vadd k1 (vscale (of_int 2) k2))
                        (vscale (of_int 2) k3)) k4)).

(** The step map and the recurrence selected by a valid mode. *)
Definition method_step (mode : IntegrationMode) : ValueType -> ValueType :=
  if mode == Euler then euler_step else rk4_step.

Definition method_recurrence (mode : IntegrationMode) :=
  if mode == Euler then euler_recurrence else rk4_recurrence.

(** The remaining span after [k] decrements of [h]. *)
Definition span_after (k : nat) (t : Scalar) : Scalar :=
  iter k (fun t => ssub t h) t.

(** The loop test [t > 0] holds before each of the first [n] iterations and
    fails after them: the loop runs exactly [n] iterations. *)
Definition exits_after (t : Scalar) (n : nat) : Prop :=
  (forall k, k < n -> sgt (span_after k t) (of_int 0)) /\
  sgt (span_after n t) (of_int 0) = false.

(** The loop test never fails. *)
Definition never_exits (t : Scalar) : Prop :=
  forall k, sgt (span_after k t) (of_int 0).

End Recurrences.

(** A linear derivative function, [f(a*x + b*y) = a*f(x) + b*f(y)], and
    the linear combination [a*r1 + b*r2] of two final states when both
    calls return. *)
Definition linear_map {Scalar ValueType : Type}
    {VO : ValueOps Scalar ValueType} (d : ValueType -> ValueType) : Prop :=
  forall (a b : Scalar) (x y : ValueType),
    d (vadd (vscale a x) (vscale b y)) = vadd (vscale a (d x)) (vscale b (d y)).

Definition combine {Scalar ValueType : Type}
    {VO : ValueOps Scalar ValueType} (a b : Scalar)
    (o1 o2 : option ValueType) : option ValueType :=
  if o1 is Some r1 then
    if o2 is Some r2 then Some (vadd (vscale a r1) (vscale b r2)) else None
  else None.

(** ** Functor objects and derivative functions

    A functor object [g] computes the function [d] when every call
    returns [d x], now and after any number of calls: some property [I] of
    functor objects holds of [g], is kept by calls, and forces the output.
    This is what "a deterministic derivative function" asks of the functor:
    the object may change (a call counter, a cache), its results may not. *)
Definition call_law {Functor ValueType : Type}
    {FO : FunctorOps Functor ValueType}
    (I : Functor -> Prop) (d : ValueType -> ValueType) : Prop :=
  forall g x, I g -> I (call g x).1 /\ (call g x).2 = d x.

Definition computes {Functor ValueType : Type}
    {FO : FunctorOps Functor ValueType}
    (g : Functor) (d : ValueType -> ValueType) : Prop :=
  exists2 I : Functor -> Prop, I g & call_law I d.

(** The usual functor: a class without data members whose call operator
    evaluates [d]. *)
Definition function_object {ValueType : Type}
    (d : ValueType -> ValueType) : FunctorOps unit ValueType :=
  {| functor_new := tt; call := fun _ x => (tt, d x) |}.

(** A functor with a data member: it counts its calls. *)
Definition counting_functor {ValueType : Type}
    (d : ValueType -> ValueType) : FunctorOps nat ValueType :=
  {| functor_new := 0; call := fun n x => (n.+1, d x) |}.

(** ** The two methods as one loop

    [ForwardEuler] and [RK4] differ in the loop body only. *)
Section Methods.
Context {Scalar ValueType Functor : Type}.
Context {SO : ScalarOps Scalar} {VO : ValueOps Scalar ValueType}.
Context {FO : FunctorOps Functor ValueType}.

Definition valid_mode (mode : IntegrationMode) : bool :=
  (mode == Euler) || (mode == RungeKutta).

Definition method_body (mode : IntegrationMode) (h : Scalar)
  : frame Scalar ValueType Functor -> frame Scalar ValueType Functor :=
  if mode == Euler then euler_body h else rk4_body h.

Definition method_loop (mode : IntegrationMode) (fuel : nat)
    (this : NumericalIntegration Scalar Functor)
    (time_span : Scalar) (x0 : ValueType) :=
  for_loop loop_cond (method_body mode (KalmanFilter.h this))
           (loop_incr (KalmanFilter.h this))
           fuel 0 (time_span, x0, KalmanFilter.f this).

End Methods.

(** ** Comparison with [<=]

    The statements about non-positive time spans speak of [<=], which the
    class template never applies.  A scalar type orders its values
    coherently when [a <= b] excludes [a > b]. *)
Class ScalarLe (Scalar : Type) := { sle : Scalar -> Scalar -> bool }.

Definition coherent_order (Scalar : Type)
    {SO : ScalarOps Scalar} {SL : ScalarLe Scalar} : Prop :=
  forall a b : Scalar, sle a b -> sgt a b = false.

Arguments coherent_order Scalar {SO SL}.

(* ===================================================================== *)
(** * Part III: two instances of the template                             *)
(* ===================================================================== *)

(** ** Exact arithmetic

    Scalars in an Archimedean ordered field (the rationals, the reals),
    values in a module over it (the field itself, vectors, matrices). *)
Definition exact_scalar (R : archiRealFieldType) : ScalarOps R :=
  {| of_int := fun z => z%:~R;
     ssub := fun a b => a - b;
     sdiv := fun a b => a / b;
     sgt := fun a b => b < a |}%R.

Definition exact_value (R : archiRealFieldType) (V : lmodType R)
  : ValueOps R V :=
  {| vadd := fun u v => u + v; vscale := fun a v => a *: v |}%R.

Definition exact_le (R : archiRealFieldType) : ScalarLe R :=
  {| sle := fun a b => a <= b |}%R.

(** The number of steps the specification announces: [ceil(timeSpan / h)]. *)
Definition ceil_steps (R : archiRealFieldType) (time_span h : R) : nat :=
  `|Num.ceil (time_span / h)%R|%N.

(** ** IEEE-754 binary64 ([double])

    [Scalar = ValueType = double], with the operations of the processor:
    every result is rounded to the nearest representable number. *)
Definition double_of_int (z : int) : float :=
  match z with
  | Posz n => PrimFloat.of_uint63 (Uint63.of_Z (Z.of_nat n))
  | Negz n => PrimFloat.opp (PrimFloat.of_uint63 (Uint63.of_Z (Z.of_nat n.+1)))
  end.

Definition double_scalar : ScalarOps float :=
  {| of_int := double_of_int;
     ssub := PrimFloat.sub;
     sdiv := PrimFloat.div;
     sgt := fun a b => PrimFloat.ltb b a |}.

Definition double_value : ValueOps float float :=
  {| vadd := PrimFloat.add; vscale := PrimFloat.mul |}.

Definition double_le : ScalarLe float := {| sle := PrimFloat.leb |}.

(** The rational number a finite [double] stands for is [m * 2^e]; for two
    positive finite doubles [t] and [h], the ceiling of the exact quotient
    [t / h] of the numbers they stand for. *)
Definition ceil_div (a b : Z) : Z := Z.opp (Z.div (Z.opp a) b).

Definition double_ceil_quot (t h : float) : option Z :=
  match Prim2SF t, Prim2SF h with
  | S754_finite false mt et, S754_finite false mh eh =>
      let e := Z.min et eh in
      Some (ceil_div (Z.mul (Zpos mt) (Z.pow (Zpos 2) (Z.sub et e)))
                     (Z.mul (Zpos mh) (Z.pow (Zpos 2) (Z.sub eh e))))
  | _, _ => None
  end.

(** ** Sample integrators over the rationals

    The derivative functions [f(x) = x] (exponential growth) and
    [f(x) = 1] as stateless functors, and the integrator with step size
    [h]. *)
Definition growth : FunctorOps unit rat^o :=
  function_object (fun x : rat^o => x).

Definition unit_slope : FunctorOps unit rat^o :=
  function_object (fun _ : rat^o => 1%R).

Definition stepper (h : rat) : NumericalIntegration rat unit :=
  mkNumericalIntegration h tt.

(** ** Notions for the properties of Part VIII *)

(** The functor object after calls on the points of [s], in order. *)
Definition thread_calls {Functor ValueType : Type}
    {FO : FunctorOps Functor ValueType}
    (g : Functor) (s : seq ValueType) : Functor :=
  foldl (fun g x => (call g x).1) g s.

(** A functor that records the arguments of its calls. *)
Definition recording_functor {ValueType : Type}
    (d : ValueType -> ValueType) : FunctorOps (seq ValueType) ValueType :=
  {| functor_new := [::]; call := fun log x => (rcons log x, d x) |}.

(** The four points at which one RK4 step from [x] evaluates the
    derivative: [x], [x + h / 2 * k1], [x + h / 2 * k2], [x + h * k3]. *)
Definition rk4_points {Scalar ValueType : Type}
    {SO : ScalarOps Scalar} {VO : ValueOps Scalar ValueType}
    (d : ValueType -> ValueType) (h : Scalar) (x : ValueType)
  : seq ValueType :=
  let x2 := vadd x (vscale (sdiv h (of_int 2)) (d x)) in
  let x3 := vadd x (vscale (sdiv h (of_int 2)) (d x2)) in
  let x4 := vadd x (vscale h (d x3)) in
  [:: x; x2; x3; x4].

(** The Taylor polynomial of degree 4 of the exponential. *)
Definition rk4_factor (R : archiRealFieldType) (z : R) : R :=
  (1 + z + z ^+ 2 / 2%:R + z ^+ 3 / 6%:R + z ^+ 4 / 24%:R)%R.

(** Further sample functors over the rationals: the derivative functions
    [f(x) = 1 - x], with the equilibrium 1, [f(x) = - x], and the growth
    at half speed, [f(x) = x / 2]. *)
Definition relaxation : FunctorOps unit rat^o :=
  function_object (fun x : rat^o => (1 - x)%R).

Definition decay : FunctorOps unit rat^o :=
  function_object (fun x : rat^o => ((-1 : rat) *: x)%R).

Definition slow_growth : FunctorOps unit rat^o :=
  function_object (fun x : rat^o => ((2%:R : rat)^-1 *: x)%R).

(** A spec float above zero: finite and positive, or [+infinity]. *)
Definition SFpositive (x : spec_float) : bool :=
  SFltb (S754_zero false) x.


(* ===================================================================== *)
(** * Part IV: the loops, for any instance of the template                *)
(* ===================================================================== *)

(** ** The [for] statement and iteration *)
Section ForLoopFacts.
Variable St : Type.
Variables (cond : St -> bool) (body incr : St -> St).

Let step (s : St) : St := incr (body s).

(** A loop whose test holds [n] times and then fails runs [n] iterations and
    leaves the [n]-th iterate of "body, then increment". *)
Lemma for_loop_exit n fuel iters s :
  (forall k, k < n -> cond (iter k step s)) ->
  cond (iter n step s) = false ->
  n <= fuel ->
  for_loop cond body incr fuel iters s = Some (iters + n, iter n step s).
Proof.
elim: n fuel iters s => [|n IHn] fuel iters s Hlt Hexit Hfuel.
  by case: fuel {Hfuel} => [|fuel] /=; rewrite Hexit addn0.
case: fuel Hfuel => // fuel Hfuel /=.
rewrite (Hlt 0) // -/(step s) IHn ?addSnnS -?iterSr //.
by move=> k Hk; rewrite -iterSr; apply: Hlt.
Qed.

(** A loop whose test holds [fuel + 1] times in a row runs out of fuel. *)
Lemma for_loop_out fuel iters s :
  (forall k, k <= fuel -> cond (iter k step s)) ->
  for_loop cond body incr fuel iters s = None.
Proof.
elim: fuel iters s => [|fuel IHf] iters s Hle /=; rewrite (Hle 0) //.
by rewrite -/(step s); apply: IHf => k Hk; rewrite -iterSr; apply: Hle.
Qed.

(** Conversely, a loop that returns has run as many iterations as its test
    held, and leaves the corresponding iterate. *)
Lemma for_loop_inv fuel iters s m r :
  for_loop cond body incr fuel iters s = Some (m, r) ->
  exists n, [/\ n <= fuel, m = iters + n, r = iter n step s,
                cond r = false & forall k, k < n -> cond (iter k step s)].
Proof.
elim: fuel iters s => [|fuel IHf] iters s /=.
  case Hc: (cond s) => //; case=> <- <-.
  by exists 0; split; rewrite ?addn0.
case Hc: (cond s); last by case=> <- <-; exists 0; split; rewrite ?addn0.
rewrite -/(step s) => /IHf [n [Hn -> -> Hr Hlt]].
exists n.+1; split=> //; first by rewrite addSnnS.
  by rewrite iterSr.
by case=> [|k] Hk //; rewrite iterSr; apply: Hlt.
Qed.

End ForLoopFacts.

(** ** Stateless and counting functors compute their function *)

Lemma function_object_computes (ValueType : Type)
    (d : ValueType -> ValueType) :
  computes (FO := function_object d) tt d.
Proof. by exists (fun _ => True). Qed.

Lemma counting_functor_computes (ValueType : Type)
    (d : ValueType -> ValueType) (calls : nat) :
  computes (FO := counting_functor d) calls d.
Proof. by exists (fun _ => True). Qed.

(** ** The two loops of the class *)
Section LoopFacts.
Context {Scalar ValueType Functor : Type}.
Context {SO : ScalarOps Scalar} {VO : ValueOps Scalar ValueType}.
Context {FO : FunctorOps Functor ValueType}.

Implicit Types (h t : Scalar) (x : ValueType) (g : Functor).
Implicit Types (s : frame Scalar ValueType Functor).
Implicit Types (d : ValueType -> ValueType) (I : Functor -> Prop).

Lemma loop_cond_span s : loop_cond s = sgt s.1.1 (of_int 0).
Proof. by case: s => [[t x] g]. Qed.

Lemma loop_incr_span h s : (loop_incr h s).1.1 = ssub s.1.1 h.
Proof. by case: s => [[t x] g]. Qed.

(** Neither body assigns [time_span]. *)
Lemma euler_body_span h s : (euler_body h s).1.1 = s.1.1.
Proof. by case: s => [[t x] g]; rewrite /euler_body; case: (call g x). Qed.

Lemma rk4_body_span h s : (rk4_body h s).1.1 = s.1.1.
Proof.
case: s => [[t x] g]; rewrite /rk4_body.
by do 4![case: (call _ _) => ? ?].
Qed.

Lemma method_body_span mode h s : (method_body mode h s).1.1 = s.1.1.
Proof.
rewrite /method_body; case: ifP => _.
  exact: euler_body_span.
exact: rk4_body_span.
Qed.

(** So the remaining span after [k] iterations is [span_after h k]. *)
Lemma iter_span mode h k s :
  (iter k (fun s => loop_incr h (method_body mode h s)) s).1.1
  = span_after h k s.1.1.
Proof.
elim: k => [|k IHk] //=.
by rewrite loop_incr_span method_body_span IHk.
Qed.

(** With a functor that computes [d], the bodies apply the step maps. *)
Lemma euler_body_step I d h t x g :
  call_law I d -> I g ->
  exists2 g', I g' & euler_body h (t, x, g) = (t, euler_step d h x, g').
Proof.
move=> HI Ig; rewrite /euler_body /euler_step.
case: (HI g x Ig); case: (call g x) => g1 dx /= Ig1 ->.
by exists g1.
Qed.

Lemma rk4_body_step I d h t x g :
  call_law I d -> I g ->
  exists2 g', I g' & rk4_body h (t, x, g) = (t, rk4_step d h x, g').
Proof.
move=> HI Ig; rewrite /rk4_body /rk4_step.
case: (HI g x Ig); case: (call g x) => g1 k1 /= Ig1 ->.
case: (HI g1 (vadd x (vscale (sdiv h (of_int 2)) (d x))) Ig1).
case: (call g1 _) => g2 k2 /= Ig2 ->.
case: (HI g2 (vadd x (vscale (sdiv h (of_int 2))
         (d (vadd x (vscale (sdiv h (of_int 2)) (d x)))))) Ig2).
case: (call g2 _) => g3 k3 /= Ig3 ->.
set x3 := vadd x (vscale h _).
case: (HI g3 x3 Ig3); case: (call g3 _) => g4 k4 /= Ig4 ->.
by exists g4.
Qed.

Lemma method_body_step mode I d h t x g :
  call_law I d -> I g ->
  exists2 g', I g' &
    method_body mode h (t, x, g) = (t, method_step d h mode x, g').
Proof.
rewrite /method_body /method_step; case: ifP => _.
  exact: euler_body_step.
exact: rk4_body_step.
Qed.

Lemma iter_frame mode I d h k t x g :
  call_law I d -> I g ->
  exists2 g', I g' &
    iter k (fun s => loop_incr h (method_body mode h s)) (t, x, g)
    = (span_after h k t, iter k (method_step d h mode) x, g').
Proof.
move=> HI Ig; elim: k => [|k [gk Igk IHk]] /=; first by exists g.
rewrite IHk.
by case: (method_body_step mode h (span_after h k t)
            (iter k (method_step d h mode) x) HI Igk) => g' Ig' ->; exists g'.
Qed.

End LoopFacts.

(** ** Running the methods *)
Section RunFacts.
Context {Scalar ValueType Functor : Type}.
Context {SO : ScalarOps Scalar} {VO : ValueOps Scalar ValueType}.
Context {FO : FunctorOps Functor ValueType}.

Implicit Types (t : Scalar) (x : ValueType) (g : Functor).
Implicit Types (this : NumericalIntegration Scalar Functor).
Implicit Types (d : ValueType -> ValueType) (mode : IntegrationMode).

(** The constructor stores any step size, positive or not. *)
Lemma new_h (time_step : Scalar) :
  h (new (FO := FO) time_step) = time_step /\
  f (new (FO := FO) time_step) = functor_new.
Proof. by []. Qed.

Lemma ForwardEulerE fuel this t x0 xout :
  ForwardEuler fuel this t x0 xout
  = omap (leave this) (method_loop Euler fuel this t x0).
Proof. by []. Qed.

Lemma RK4E fuel this t x0 xout :
  RK4 fuel this t x0 xout
  = omap (leave this) (method_loop RungeKutta fuel this t x0).
Proof. by []. Qed.

Lemma integrateE mode fuel this t x0 xout :
  valid_mode mode ->
  integrate mode fuel this t x0 xout
  = omap (fun r => (leave this r).2) (method_loop mode fuel this t x0).
Proof.
case/orP => /eqP ->; rewrite /integrate /= ?ForwardEulerE ?RK4E.
  by case: (method_loop _ _ _ _ _).
by case: (method_loop _ _ _ _ _).
Qed.

Lemma method_loop_count mode fuel this t x n :
  exits_after (h this) t n -> n <= fuel ->
  exists r, method_loop mode fuel this t x = Some (n, r).
Proof.
case=> Hlt Hexit Hfuel; rewrite /method_loop.
rewrite (@for_loop_exit _ _ _ _ n) ?add0n //; last by eexists.
  by move=> k Hk; rewrite loop_cond_span iter_span; apply: Hlt.
by rewrite loop_cond_span iter_span.
Qed.

Lemma method_loop_exits mode d fuel this t x n :
  computes (f this) d -> exits_after (h this) t n -> n <= fuel ->
  exists2 g', computes g' d &
    method_loop mode fuel this t x
    = Some (n, (span_after (h this) n t,
                iter n (method_step d (h this) mode) x, g')).
Proof.
case=> I Ig HI [Hlt Hexit] Hfuel; rewrite /method_loop.
case: (iter_frame mode (h this) n t x HI Ig) => g' Ig' Hiter.
exists g'; first by exists I.
rewrite (@for_loop_exit _ _ _ _ n) ?add0n ?Hiter //.
by move=> k Hk; rewrite loop_cond_span iter_span; apply: Hlt.
Qed.

Lemma method_loop_out mode fuel this t x :
  (forall k, k <= fuel -> sgt (span_after (h this) k t) (of_int 0)) ->
  method_loop mode fuel this t x = None.
Proof.
move=> Hle; apply: for_loop_out => k Hk.
by rewrite loop_cond_span iter_span; apply: Hle.
Qed.

Lemma method_loop_inv mode fuel this t x n r :
  method_loop mode fuel this t x = Some (n, r) ->
  n <= fuel /\ exits_after (h this) t n.
Proof.
rewrite /method_loop => Hrun.
case: (for_loop_inv Hrun) => m [Hm -> -> Hexit Hlt]; rewrite add0n.
split=> //; split.
  by move=> k /Hlt; rewrite loop_cond_span iter_span.
by move: Hexit; rewrite loop_cond_span iter_span.
Qed.

Lemma for_loopS St (cond : St -> bool) (body incr : St -> St) fuel iters s :
  for_loop cond body incr fuel.+1 iters s
  = if cond s then for_loop cond body incr fuel iters.+1 (incr (body s))
    else Some (iters, s).
Proof. by []. Qed.

(** The loops compute the recurrences of the specification. *)
Lemma euler_loop_recurrence I d h fuel iters t x g :
  call_law I d -> I g ->
  omap (fun r : nat * frame Scalar ValueType Functor => r.2.1.2)
       (for_loop loop_cond (euler_body h) (loop_incr h) fuel iters (t, x, g))
  = euler_recurrence d h fuel t x.
Proof.
move=> HI; elim: fuel iters t x g => [|fuel IHf] iters t x g Ig.
  by rewrite /=; case: (sgt t _).
rewrite for_loopS [RHS]/= {1}/loop_cond; case: (sgt t _) => //.
case: (euler_body_step h t x HI Ig) => g' Ig' ->.
exact: IHf.
Qed.

Lemma rk4_loop_recurrence I d h fuel iters t x g :
  call_law I d -> I g ->
  omap (fun r : nat * frame Scalar ValueType Functor => r.2.1.2)
       (for_loop loop_cond (rk4_body h) (loop_incr h) fuel iters (t, x, g))
  = rk4_recurrence d h fuel t x.
Proof.
move=> HI; elim: fuel iters t x g => [|fuel IHf] iters t x g Ig.
  by rewrite /=; case: (sgt t _).
rewrite for_loopS [RHS]/= {1}/loop_cond; case: (sgt t _) => //.
case: (rk4_body_step h t x HI Ig) => g' Ig' ->.
exact: IHf.
Qed.

End RunFacts.

(** ** The recurrences, one step at a time *)
Section RecurrenceFacts.
Context {Scalar ValueType : Type}.
Context {SO : ScalarOps Scalar} {VO : ValueOps Scalar ValueType}.

Implicit Types (h t : Scalar) (x : ValueType).
Implicit Types (d : ValueType -> ValueType) (mode : IntegrationMode).

Lemma span_afterS h k t :
  span_after h k.+1 t = ssub (span_after h k t) h.
Proof. by []. Qed.

Lemma method_recurrence0 mode d h t x :
  method_recurrence d h mode 0 t x
  = if sgt t (of_int 0) then None else Some x.
Proof. by rewrite /method_recurrence; case: ifP. Qed.

Lemma method_recurrenceS mode d h fuel t x :
  method_recurrence d h mode fuel.+1 t x
  = if sgt t (of_int 0)
    then method_recurrence d h mode fuel (ssub t h) (method_step d h mode x)
    else Some x.
Proof. by rewrite /method_recurrence /method_step; case: ifP. Qed.

(** Two derivative functions with the same step map give the same
    recurrence, also across the two methods. *)
Lemma method_recurrence_ext mode1 mode2 d1 d2 h :
  method_step d1 h mode1 =1 method_step d2 h mode2 ->
  forall fuel t x,
    method_recurrence d1 h mode1 fuel t x
    = method_recurrence d2 h mode2 fuel t x.
Proof.
move=> Hstep; elim=> [|fuel IHf] t x.
  by rewrite !method_recurrence0.
by rewrite !method_recurrenceS Hstep IHf.
Qed.

End RecurrenceFacts.

(** ** Claims that hold for every instance of the template *)
Section GenericClaims.
Context {Scalar ValueType Functor : Type}.
Context {SO : ScalarOps Scalar} {VO : ValueOps Scalar ValueType}.
Context {FO : FunctorOps Functor ValueType}.

Implicit Types (t : Scalar) (x : ValueType) (g : Functor).
Implicit Types (this : NumericalIntegration Scalar Functor).
Implicit Types (d : ValueType -> ValueType) (mode : IntegrationMode).

Lemma omap_xout this
    (o : option (nat * frame Scalar ValueType Functor)) :
  omap snd (omap (fun r => (leave this r).2) o)
  = omap (fun r : nat * frame Scalar ValueType Functor => r.2.1.2) o.
Proof. by case: o => [[n [[t x] g]]|]. Qed.

Lemma integrate_recurrence mode d fuel this t x0 xout :
  valid_mode mode -> computes (f this) d ->
  omap snd (integrate mode fuel this t x0 xout)
  = method_recurrence d (h this) mode fuel t x0.
Proof.
move=> Hmode [I Ig HI]; rewrite integrateE // omap_xout.
case/orP: Hmode => /eqP ->.
  exact: (euler_loop_recurrence (h this) fuel 0 t x0 HI Ig).
exact: (rk4_loop_recurrence (h this) fuel 0 t x0 HI Ig).
Qed.

Lemma integrate_invalid mode fuel this t x0 xout :
  ~~ valid_mode mode -> integrate mode fuel this t x0 xout = Some (this, xout).
Proof.
by rewrite /valid_mode negb_or /integrate => /andP [/negbTE -> /negbTE ->].
Qed.

(** A loop that leaves after [n] iterations returns the [n]-th iterate of
    the step map. *)
Lemma integrate_exits mode d fuel this t x0 xout n :
  valid_mode mode -> computes (f this) d ->
  exits_after (h this) t n -> n <= fuel ->
  omap snd (integrate mode fuel this t x0 xout)
  = Some (iter n (method_step d (h this) mode) x0).
Proof.
move=> Hmode Hd Hexit Hfuel; rewrite integrateE //.
by case: (method_loop_exits mode x0 Hd Hexit Hfuel) => g' _ ->.
Qed.

(** A call that returns leaves [h] alone and a functor that still
    computes the same function. *)
Lemma integrate_keeps mode d fuel this t x0 xout this1 r :
  computes (f this) d ->
  integrate mode fuel this t x0 xout = Some (this1, r) ->
  h this1 = h this /\ computes (f this1) d.
Proof.
move=> Hd; case Hmode: (valid_mode mode); last first.
  by rewrite integrate_invalid ?Hmode // => -[<- _].
rewrite integrateE //.
case Hrun: (method_loop mode fuel this t x0) => [[n s]|] //=.
case: (method_loop_inv Hrun) => Hn Hexit.
case: (method_loop_exits mode x0 Hd Hexit Hn) => g1 Hg1.
by rewrite Hrun => -[->] /= [<- _].
Qed.

(** C1. With the method selector Euler, [integrate(timeSpan, x0, xout)]
    computes the forward-Euler recurrence of the specification: from
    [x = x0] and [t = timeSpan], while [t > 0] it evaluates [dx = f(x)],
    updates [x = x + h * dx] and decrements [t] by [h]; the content of
    [xout] on return is the [x] so computed.  For every bound on the
    number of iterations the method and the recurrence return the same
    state, or both need more iterations; and when the test [t > 0] fails
    for the first time after [n] decrements, the method returns the
    [n]-th iterate of [x + h * f(x)] as soon as [n] iterations are
    allowed. *)
Theorem integrate_euler_recurrence g d (h0 t : Scalar) x0 xout :
  computes g d ->
  (forall fuel,
     omap snd (integrate Euler fuel (mkNumericalIntegration h0 g) t x0 xout)
     = euler_recurrence d h0 fuel t x0) /\
  (forall n fuel, exits_after h0 t n -> n <= fuel ->
     omap snd (integrate Euler fuel (mkNumericalIntegration h0 g) t x0 xout)
     = Some (iter n (euler_step d h0) x0)).
Proof.
move=> Hd; split=> [fuel|n fuel Hexit Hfuel].
  by rewrite (@integrate_recurrence Euler d).
exact: (integrate_exits (this := mkNumericalIntegration h0 g) x0 xout
          (isT : valid_mode Euler) Hd Hexit Hfuel).
Qed.

(** C2. With the method selector RungeKutta, [integrate] computes the RK4
    recurrence of the specification: [k1 = f(x)],
    [k2 = f(x + (h/2) * k1)], [k3 = f(x + (h/2) * k2)],
    [k4 = f(x + h * k3)], [x = x + (h/6) * (k1 + 2*k2 + 2*k3 + k4)],
    [t -= h], while [t > 0]; the intermediate stages use [h/2] and the
    last stage [h].  When the test [t > 0] fails for the first time after
    [n] decrements, the method returns the [n]-th iterate of that step as
    soon as [n] iterations are allowed. *)
Theorem integrate_rk4_recurrence g d (h0 t : Scalar) x0 xout :
  computes g d ->
  (forall fuel,
     omap snd (integrate RungeKutta fuel (mkNumericalIntegration h0 g)
                         t x0 xout)
     = rk4_recurrence d h0 fuel t x0) /\
  (forall n fuel, exits_after h0 t n -> n <= fuel ->
     omap snd (integrate RungeKutta fuel (mkNumericalIntegration h0 g)
                         t x0 xout)
     = Some (iter n (rk4_step d h0) x0)).
Proof.
move=> Hd; split=> [fuel|n fuel Hexit Hfuel].
  by rewrite (@integrate_recurrence RungeKutta d).
exact: (integrate_exits (this := mkNumericalIntegration h0 g) x0 xout
          (isT : valid_mode RungeKutta) Hd Hexit Hfuel).
Qed.

(** C5. For a time span [timeSpan <= 0], [integrate] returns with the
    initial state [x0] in [xout], for the Euler and for the RungeKutta
    method, whatever the step size (so also for every [h > 0]): the loop
    body is never run, the functor is never called, the object is left as
    it was, and the method returns normally even without a single
    iteration allowed. *)
Theorem integrate_nonpositive_span {SL : ScalarLe Scalar}
    mode fuel this t x0 xout :
  coherent_order Scalar ->
  mode = Euler \/ mode = RungeKutta ->
  sle t (of_int 0) ->
  integrate mode fuel this t x0 xout = Some (this, x0).
Proof.
move=> Hord Hmode Hle; have Ht := Hord _ _ Hle.
have Hv: valid_mode mode.
  by rewrite /valid_mode; case: Hmode => ->; rewrite eqxx ?orbT.
rewrite integrateE // /method_loop.
by case: fuel => [|fuel] /=; rewrite Ht /=; case: this.
Qed.

(** C6. For a method selector outside {Euler, RungeKutta}, [integrate]
    falls through the [switch]: it returns normally, at once, without
    calling the functor; the object and the output argument are unchanged.
    In particular [xout] is not assigned the initial state. *)
Theorem integrate_invalid_mode mode fuel this t x0 xout :
  mode <> Euler -> mode <> RungeKutta ->
  integrate mode fuel this t x0 xout = Some (this, xout) /\
  (xout <> x0 -> integrate mode fuel this t x0 xout <> Some (this, x0)).
Proof.
move=> /eqP HE /eqP HR.
have ->: integrate mode fuel this t x0 xout = Some (this, xout).
  by apply: integrate_invalid; rewrite /valid_mode negb_or HE HR.
by split=> // Hx [].
Qed.

(** C8. [integrate] is deterministic and pure with respect to the state
    of the integrator.  Given a derivative functor that computes a
    function [d]: two calls with the same time span and the same initial
    state, on objects with the same step size whose functors compute [d]
    (such as one object before and after any number of calls), leave the
    same final state, or both need more than [fuel] iterations; and a call
    that returns leaves [h] unchanged and a functor that still computes
    [d].  (For an invalid selector the final state is the previous content
    of [xout], so it has to be the same in both calls.) *)
Theorem integrate_deterministic d mode fuel this this' t x0 xout xout' :
  h this = h this' ->
  computes (f this) d -> computes (f this') d ->
  (valid_mode mode \/ xout = xout') ->
  omap snd (integrate mode fuel this t x0 xout)
  = omap snd (integrate mode fuel this' t x0 xout')
  /\ (forall this1 r,
        integrate mode fuel this t x0 xout = Some (this1, r) ->
        h this1 = h this /\ computes (f this1) d).
Proof.
move=> Hh Hd Hd' Hmode; split; last first.
  by move=> this1 r; apply: integrate_keeps.
case Hv: (valid_mode mode).
  by rewrite !(@integrate_recurrence mode d) // Hh.
case: Hmode => [|->]; first by rewrite Hv.
by rewrite !integrate_invalid ?Hv.
Qed.

(** In particular, calling [integrate] a second time with the same
    arguments (and the same variable for [xout]) leaves the same final
    state. *)
Lemma integrate_again d mode fuel this t x0 xout this1 r :
  computes (f this) d ->
  integrate mode fuel this t x0 xout = Some (this1, r) ->
  exists2 this2,
    integrate mode fuel this1 t x0 r = Some (this2, r) & h this2 = h this.
Proof.
move=> Hd Hcall; case: (integrate_keeps Hd Hcall) => Hh Hd1.
case Hv: (valid_mode mode); last first.
  move: Hcall; rewrite !integrate_invalid ?Hv // => -[<- <-].
  by exists this.
have Hr: omap snd (integrate mode fuel this1 t x0 r) = Some r.
  by rewrite (integrate_recurrence _ _ _ _ Hv Hd1) Hh
             -(integrate_recurrence _ _ _ xout Hv Hd) Hcall.
case Hcall2: (integrate mode fuel this1 t x0 r) Hr => [[this2 r2]|] //= -[Hr2].
exists this2; first by rewrite Hr2.
by case: (integrate_keeps Hd1 Hcall2) => ->.
Qed.

End GenericClaims.

(* ===================================================================== *)
(** * Part V: exact arithmetic                                            *)
(* ===================================================================== *)

Section ExactArithmetic.
Variables (R : archiRealFieldType) (V : lmodType R).
Variables (Functor : Type) (FO : FunctorOps Functor V).

#[local] Existing Instance exact_scalar.
#[local] Existing Instance exact_value.

Local Open Scope ring_scope.

Implicit Types (t : R) (x y : V) (g : Functor) (n k : nat).
Implicit Types (this : NumericalIntegration R Functor).
Implicit Types (d : V -> V) (mode : IntegrationMode).

(** ** The loop test *)

Lemma span_afterE (h0 : R) k t : span_after h0 k t = t - k%:R * h0.
Proof.
elim: k => [|k IHk]; first by rewrite /span_after /= mul0r subr0.
by rewrite span_afterS IHk /= -natr1 mulrDl mul1r opprD addrA.
Qed.

Lemma loop_testE (h0 : R) k t :
  sgt (span_after h0 k t) (of_int 0) = (k%:R * h0 < t).
Proof. by rewrite span_afterE /= subr_gt0. Qed.

(** For [h > 0] and [t > 0] the loop runs [ceil (t / h)] iterations. *)
Lemma ceil_steps_bounds (h0 : R) t :
  0 < h0 -> 0 < t ->
  ((ceil_steps t h0)%:R - 1) * h0 < t <= (ceil_steps t h0)%:R * h0.
Proof.
move=> Hh Ht; rewrite /ceil_steps.
have Hc: 0 <= Num.ceil (t / h0) by rewrite ltW // ceil_gt0 divr_gt0.
rewrite natr_absz ger0_norm // -ltr_pdivlMr // -ler_pdivrMr //.
by have := ceil_itv (t / h0); rewrite intrB mulr1z.
Qed.

Lemma exits_after_ceil (h0 : R) t :
  0 < h0 -> 0 < t -> exits_after h0 t (ceil_steps t h0).
Proof.
move=> Hh Ht; case/andP: (ceil_steps_bounds Hh Ht) => Hlo Hhi.
split=> [k Hk|]; last by rewrite loop_testE ltNge Hhi.
rewrite loop_testE; apply: le_lt_trans Hlo.
by rewrite ler_pM2r // lerBrDr natr1 ler_nat.
Qed.

Lemma exits_after_nonpos (h0 : R) t : t <= 0 -> exits_after h0 t 0.
Proof. by move=> Ht; split=> //; rewrite loop_testE mul0r ltNge Ht. Qed.

(** For [h <= 0] and [t > 0] the loop test never fails. *)
Lemma never_exits_nonpos_step (h0 : R) t :
  h0 <= 0 -> 0 < t -> never_exits h0 t.
Proof.
move=> Hh Ht k; rewrite loop_testE.
by apply: le_lt_trans Ht; rewrite mulr_ge0_le0 ?ler0n.
Qed.

(** For [h > 0] the loop always leaves. *)
Lemma exits_after_pos_step (h0 : R) t :
  0 < h0 -> exists n, exits_after h0 t n.
Proof.
move=> Hh; case: (lerP t 0) => Ht; first by exists 0; apply: exits_after_nonpos.
by exists (ceil_steps t h0); apply: exits_after_ceil.
Qed.


(** ** Step counts and termination *)

Lemma exact_run_count mode fuel this t x :
  0 < h this -> 0 < t -> (ceil_steps t (h this) <= fuel)%N ->
  exists r, method_loop mode fuel this t x = Some (ceil_steps t (h this), r).
Proof.
by move=> Hh Ht; apply: method_loop_count; apply: exits_after_ceil.
Qed.

Lemma exact_run_short mode fuel this t x :
  0 < h this -> 0 < t -> (fuel < ceil_steps t (h this))%N ->
  method_loop mode fuel this t x = None.
Proof.
move=> Hh Ht Hfuel; apply: method_loop_out => k Hk.
case: (exits_after_ceil Hh Ht) => Hlt _; apply: Hlt.
exact: leq_ltn_trans Hfuel.
Qed.

(** C3 (exact arithmetic).  For a step size [h > 0] and a time span
    [timeSpan > 0], in exact arithmetic, the Euler and the RungeKutta loop
    both run exactly [ceil (timeSpan / h)] iterations: with that many
    iterations allowed they return having run that many, with fewer they
    have not returned.  The time covered, [n * h], lies in
    [[timeSpan, timeSpan + h)], and when [timeSpan] is no multiple of [h] it
    exceeds [timeSpan]: the last iteration steps past the nominal end.  It
    is a full step like the others: the final state is the [n]-th iterate
    of the step map with step size [h]. *)
Theorem exact_step_count this t (x0 xout : V) :
  0 < h this -> 0 < t ->
  [/\ forall fuel, (ceil_steps t (h this) <= fuel)%N ->
        (exists o, ForwardEuler fuel this t x0 xout
                   = Some (ceil_steps t (h this), o)) /\
        (exists o, RK4 fuel this t x0 xout
                   = Some (ceil_steps t (h this), o)),
      forall fuel, (fuel < ceil_steps t (h this))%N ->
        ForwardEuler fuel this t x0 xout = None /\
        RK4 fuel this t x0 xout = None,
      t <= (ceil_steps t (h this))%:R * h this < t + h this,
      (forall m : nat, t <> m%:R * h this) ->
        t < (ceil_steps t (h this))%:R * h this
    & forall d fuel, computes (f this) d ->
        (ceil_steps t (h this) <= fuel)%N ->
        omap (fun r => r.2.2) (ForwardEuler fuel this t x0 xout)
        = Some (iter (ceil_steps t (h this)) (euler_step d (h this)) x0) /\
        omap (fun r => r.2.2) (RK4 fuel this t x0 xout)
        = Some (iter (ceil_steps t (h this)) (rk4_step d (h this)) x0)].
Proof.
move=> Hh Ht; case/andP: (ceil_steps_bounds Hh Ht) => Hlo Hhi.
split.
- move=> fuel Hfuel; rewrite ForwardEulerE RK4E; split.
    case: (exact_run_count Euler x0 Hh Ht Hfuel) => -[[t' x'] g'] ->.
    by eexists.
  case: (exact_run_count RungeKutta x0 Hh Ht Hfuel) => -[[t' x'] g'] ->.
  by eexists.
- move=> fuel Hfuel; rewrite ForwardEulerE RK4E.
  by rewrite !exact_run_short.
- by rewrite Hhi /= -ltrBlDr -[X in _ - X]mul1r -mulrBl.
- move=> Hm; rewrite lt_neqAle Hhi andbT.
  by apply/eqP; apply: Hm.
- move=> d fuel Hd Hfuel; rewrite ForwardEulerE RK4E.
  have Hexit := exits_after_ceil Hh Ht; split.
    by case: (method_loop_exits Euler x0 Hd Hexit Hfuel) => g' _ ->.
  by case: (method_loop_exits RungeKutta x0 Hd Hexit Hfuel) => g' _ ->.
Qed.

(** Termination in exact arithmetic.  For a step size [h > 0] the call
    returns, for every time span (and every selector), once enough
    iterations are allowed.  For [h <= 0] and [timeSpan > 0] the test
    [t > 0] after [t -= h] never fails: the Euler and the RungeKutta method
    do not return, however many iterations are allowed. *)
Lemma exact_termination mode this t (x0 xout : V) :
  (0 < h this ->
   exists n, forall fuel, (n <= fuel)%N ->
     exists o, integrate mode fuel this t x0 xout = Some o) /\
  (h this <= 0 -> 0 < t -> mode = Euler \/ mode = RungeKutta ->
   forall fuel, integrate mode fuel this t x0 xout = None).
Proof.
split=> [Hh|Hh Ht Hmode fuel].
  case Hv: (valid_mode mode); last first.
    by exists 0%N => fuel _; rewrite integrate_invalid ?Hv //; eexists.
  case: (exits_after_pos_step t Hh) => n Hexit; exists n => fuel Hfuel.
  rewrite integrateE //.
  by case: (method_loop_count mode x0 Hexit Hfuel) => r ->; eexists.
have Hv: valid_mode mode.
  by rewrite /valid_mode; case: Hmode => ->; rewrite eqxx ?orbT.
rewrite integrateE // method_loop_out // => k _.
exact: never_exits_nonpos_step.
Qed.

(** ** A constant derivative *)

Lemma iter_euler_const (k : V) (h0 : R) n x :
  iter n (euler_step (fun _ => k) h0) x = x + (n%:R * h0) *: k.
Proof.
elim: n => [|n IHn]; first by rewrite /= mul0r scale0r addr0.
by rewrite iterS IHn /euler_step /= -addrA -scalerDl -natr1 mulrDl mul1r.
Qed.

(** C7 (exact arithmetic).  For the constant derivative [f(x) = k], in
    exact arithmetic, Euler integration with a step size [h > 0] over
    [timeSpan = n * h] returns exactly [x0 + (n * h) * k], for every
    natural number [n] and every initial state [x0], as soon as [n]
    iterations are allowed. *)
Theorem euler_constant_derivative g (k : V) (h0 : R) n x0 xout fuel :
  computes g (fun _ => k) -> 0 < h0 -> (n <= fuel)%N ->
  omap snd (integrate Euler fuel (mkNumericalIntegration h0 g)
                      (n%:R * h0) x0 xout)
  = Some (x0 + (n%:R * h0) *: k).
Proof.
move=> Hd Hh Hfuel; rewrite integrateE //.
have Hexit: exits_after h0 (n%:R * h0) n.
  split=> [m Hm|]; rewrite loop_testE ?ltxx //.
  by rewrite ltr_pM2r // ltr_nat.
case: (@method_loop_exits _ _ _ _ _ _ Euler _ fuel
         (mkNumericalIntegration h0 g) _ x0 n Hd Hexit Hfuel) => g' _ -> /=.
by rewrite -iter_euler_const.
Qed.

Lemma rk4_step_const (c : V) (h0 : R) x :
  rk4_step (fun _ => c) h0 x = euler_step (fun _ => c) h0 x.
Proof.
rewrite /rk4_step /euler_step /=; congr (_ + _).
rewrite -{1 4}[c]scale1r -!scalerDl scalerA; congr (_ *: _).
by field.
Qed.

(** C9 (exact arithmetic).  For a constant derivative [f(x) = c], in exact
    arithmetic, the Euler and the RungeKutta method leave the same final
    state, for every step size, time span and initial state: the four
    stages of an RK4 step all equal [c], and the step is the Euler step
    [x + h * c].  (When the loops do not terminate, neither method
    returns.) *)
Theorem constant_derivative_methods_agree g (c : V) (h0 t : R)
    x0 xout fuel :
  computes g (fun _ => c) ->
  omap snd (integrate Euler fuel (mkNumericalIntegration h0 g) t x0 xout)
  = omap snd (integrate RungeKutta fuel (mkNumericalIntegration h0 g)
                        t x0 xout).
Proof.
move=> Hd; rewrite !(@integrate_recurrence _ _ _ _ _ _ _ (fun _ => c)) //.
apply: method_recurrence_ext => x.
exact: esym (rk4_step_const c h0 x).
Qed.

(** ** A linear derivative *)

Lemma linear_map_id : linear_map (fun x : V => x).
Proof. by []. Qed.

Lemma linear_map_add (p q : V -> V) :
  linear_map p -> linear_map q -> linear_map (fun x => p x + q x).
Proof.
move=> Hp Hq a b x y; rewrite Hp Hq /= !scalerDr.
by rewrite addrACA.
Qed.

Lemma linear_map_scale (s : R) (p : V -> V) :
  linear_map p -> linear_map (fun x => s *: p x).
Proof.
move=> Hp a b x y; rewrite Hp /= scalerDr !scalerA.
by rewrite [s * a]mulrC [s * b]mulrC.
Qed.

Lemma linear_map_comp (p q : V -> V) :
  linear_map p -> linear_map q -> linear_map (fun x => p (q x)).
Proof. by move=> Hp Hq a b x y; rewrite Hq Hp. Qed.

Lemma euler_step_linear d (h0 : R) :
  linear_map d -> linear_map (euler_step d h0).
Proof.
move=> Hd; rewrite /euler_step /=.
exact: (linear_map_add linear_map_id (linear_map_scale h0 Hd)).
Qed.

Lemma rk4_step_linear d (h0 : R) :
  linear_map d -> linear_map (rk4_step d h0).
Proof.
move=> Hd; rewrite /rk4_step /=.
have Hstage (s : R) (k : V -> V) :
    linear_map k -> linear_map (fun x => d (x + s *: k x)).
  move=> Hk; apply: (@linear_map_comp d (fun x => x + s *: k x)) => //.
  exact: (linear_map_add linear_map_id (linear_map_scale s Hk)).
have H2 := Hstage (h0 / 2%:~R) d Hd.
have H3 := Hstage (h0 / 2%:~R) _ H2.
have H4 := Hstage h0 _ H3.
apply: (linear_map_add linear_map_id); apply: linear_map_scale.
apply: linear_map_add H4; apply: linear_map_add (linear_map_scale _ H3).
exact: linear_map_add Hd (linear_map_scale _ H2).
Qed.

Lemma method_step_linear mode d (h0 : R) :
  linear_map d -> linear_map (method_step d h0 mode).
Proof.
rewrite /method_step; case: ifP => _.
  exact: euler_step_linear.
exact: rk4_step_linear.
Qed.

Lemma method_recurrence_linear mode d (h0 : R) fuel t a b x y :
  linear_map d ->
  method_recurrence d h0 mode fuel t (a *: x + b *: y)
  = combine a b (method_recurrence d h0 mode fuel t x)
                (method_recurrence d h0 mode fuel t y).
Proof.
move=> Hd; elim: fuel t x y => [|fuel IHf] t x y.
  by rewrite !method_recurrence0; case: (sgt t _).
rewrite !method_recurrenceS; case: (sgt t _) => //.
by rewrite (method_step_linear mode h0 Hd) IHf.
Qed.

(** C10 (exact arithmetic).  For a linear derivative function, in exact
    arithmetic, the map from the initial state to the final state is
    linear, for both methods, every step size and every time span:
    [integrate(t, a*x0 + b*y0) = a*integrate(t, x0) + b*integrate(t, y0)].
    The three calls run the same number of iterations: the first returns
    exactly when the other two do. *)
Theorem integrate_linear d mode fuel this t (a b : R) x0 y0 xout :
  linear_map d -> computes (f this) d ->
  mode = Euler \/ mode = RungeKutta ->
  omap snd (integrate mode fuel this t (a *: x0 + b *: y0) xout)
  = combine a b (omap snd (integrate mode fuel this t x0 xout))
                (omap snd (integrate mode fuel this t y0 xout)).
Proof.
move=> Hlin Hd Hmode.
have Hv: valid_mode mode.
  by rewrite /valid_mode; case: Hmode => ->; rewrite eqxx ?orbT.
by rewrite !(integrate_recurrence _ _ _ _ Hv Hd) method_recurrence_linear.
Qed.

End ExactArithmetic.

(* ===================================================================== *)
(** * Part VI: binary64 arithmetic                                        *)
(* ===================================================================== *)

(** ** Comparison of doubles *)

Lemma SFcompare_antisym x y : SFcompare y x = omap CompOpp (SFcompare x y).
Proof.
case: x => [sx|sx||sx mx ex]; case: y => [sy|sy||sy my ey] //=;
  try by [case: sx | case: sy | case: sx; case: sy].
case: sx; case: sy => //=; rewrite (Z.compare_antisym ex ey);
  case: (Z.compare ex ey) => //=.
  by rewrite -(Pos.compare_cont_antisym mx my Eq).
rewrite -(Pos.compare_cont_antisym my mx Eq) /=.
by case: (Pos.compare_cont _ _ _).
Qed.

Lemma double_le_not_gt (a b : float) :
  PrimFloat.leb a b -> PrimFloat.ltb b a = false.
Proof.
rewrite leb_spec ltb_spec /SFleb /SFltb (SFcompare_antisym (Prim2SF a)).
by case: (SFcompare _ _) => [[]|].
Qed.

(** [double] orders its values coherently (a NaN compares with nothing). *)
Lemma double_coherent_order :
  coherent_order float (SO := double_scalar) (SL := double_le).
Proof. by move=> a b; apply: double_le_not_gt. Qed.

(** So does an ordered field. *)
Lemma exact_coherent_order (R : archiRealFieldType) :
  coherent_order R (SO := exact_scalar R) (SL := exact_le R).
Proof. by move=> a b /=; rewrite ltNge => ->. Qed.

Section Double.

#[local] Existing Instance double_scalar.
#[local] Existing Instance double_value.

(** On doubles [2^54 - 1] rounds back to [2^54]: with [h = 1] the
    remaining span never changes. *)
Lemma double_span_stuck k :
  span_after 1%float k 18014398509481984%float = 18014398509481984%float.
Proof. by elim: k => [|k IHk] //; rewrite span_afterS IHk. Qed.

(** C3, on doubles.  With [h = 0.1] and [timeSpan = 1.0], both positive,
    the ceiling of the quotient is 10 (of the exact quotient of the two
    doubles, and of their rounded quotient, which is the double 10), but
    the Euler and the RungeKutta loop both run 11 iterations: after ten
    decrements the remaining span is still positive. *)
Lemma double_step_count_counterexample :
  [/\ sgt 0.1%float (of_int 0) /\ sgt 1%float (of_int 0),
      double_ceil_quot 1%float 0.1%float = Some (Zpos 10),
      PrimFloat.div 1%float 0.1%float = 10%float,
      omap fst (ForwardEuler (FO := function_object (fun _ => 0%float)) 20
                  (mkNumericalIntegration 0.1%float tt) 1%float
                  0%float 0%float) = Some 11
    & omap fst (RK4 (FO := function_object (fun _ => 0%float)) 20
                  (mkNumericalIntegration 0.1%float tt) 1%float
                  0%float 0%float) = Some 11].
Proof. by split; vm_compute. Qed.

(** C4, on doubles.  With the step size [h = 1 > 0] and the time span
    [2^54], neither method ever returns: the decrement [t -= h] leaves [t]
    unchanged. *)
Lemma double_termination_counterexample :
  sgt 1%float (of_int 0) /\
  forall fuel,
    integrate (FO := function_object (fun _ => 0%float)) Euler fuel
      (mkNumericalIntegration 1%float tt) 18014398509481984%float
      0%float 0%float = None /\
    integrate (FO := function_object (fun _ => 0%float)) RungeKutta fuel
      (mkNumericalIntegration 1%float tt) 18014398509481984%float
      0%float 0%float = None.
Proof.
split=> // fuel; rewrite !integrateE // !method_loop_out //= => k _.
  by rewrite double_span_stuck.
by rewrite double_span_stuck.
Qed.

(** C9, on doubles.  With the constant derivative [f(x) = 1], the step
    size [h = 0.9] and the time span [0.9] (one step from [x0 = 0]), the
    Euler method returns [0.9] and the RungeKutta method
    [0.9 / 6 * 6], which is the double just below [0.9]. *)
Lemma double_constant_counterexample :
  computes (FO := function_object (fun _ => 1%float)) tt (fun _ => 1%float) /\
  omap snd (integrate (FO := function_object (fun _ => 1%float)) Euler 1
              (mkNumericalIntegration 0.9%float tt) 0.9%float
              0%float 0%float)
  <> omap snd (integrate (FO := function_object (fun _ => 1%float))
                 RungeKutta 1
                 (mkNumericalIntegration 0.9%float tt) 0.9%float
                 0%float 0%float).
Proof.
split; first exact: function_object_computes.
by move/(congr1 (omap Prim2SF)); vm_compute.
Qed.

(** C10, on doubles.  The identity is a linear derivative function, but
    with [h = timeSpan = 0.5] (one Euler step) the final state from
    [1 * 1 + 1 * 0.1] is not the sum of the final states from [1] and from
    [0.1]: the two sides round differently. *)
Lemma double_linear_counterexample :
  [/\ linear_map (fun x : float => x),
      computes (FO := function_object (fun x : float => x)) tt (fun x => x)
    & omap snd (integrate (FO := function_object (fun x : float => x))
                  Euler 1 (mkNumericalIntegration 0.5%float tt) 0.5%float
                  (1 * 1 + 1 * 0.1)%float 0%float)
      <> combine 1%float 1%float
           (omap snd (integrate (FO := function_object (fun x : float => x))
                        Euler 1 (mkNumericalIntegration 0.5%float tt)
                        0.5%float 1%float 0%float))
           (omap snd (integrate (FO := function_object (fun x : float => x))
                        Euler 1 (mkNumericalIntegration 0.5%float tt)
                        0.5%float 0.1%float 0%float))].
Proof.
split; [by [] | exact: function_object_computes |].
by move/(congr1 (omap Prim2SF)); vm_compute.
Qed.

(** C7, on doubles.  With the constant derivative [f(x) = 1], the step
    size [h = 0.1 > 0], [n = 10] and the time span [n * h] (the double
    [1.0]), from [x0 = 0]: [x0 + n * h * k] is [1.0], and the ten
    increments added in the order of the loop give [0.9999999999999999],
    but the Euler loop runs 11 iterations, not 10, and returns
    [1.0999999999999999].  The deviation is a whole step, not one of
    summation order. *)
Lemma double_euler_constant_counterexample :
  [/\ computes (FO := function_object (fun _ => 1%float)) tt
        (fun _ => 1%float) /\ sgt 0.1%float (of_int 0),
      omap snd (integrate (FO := function_object (fun _ => 1%float)) Euler 20
                  (mkNumericalIntegration 0.1%float tt)
                  (of_int 10 * 0.1)%float 0%float 0%float)
      <> Some (0 + (of_int 10 * 0.1) * 1)%float,
      omap fst (ForwardEuler (FO := function_object (fun _ => 1%float)) 20
                  (mkNumericalIntegration 0.1%float tt)
                  (of_int 10 * 0.1)%float 0%float 0%float)
      = Some 11,
      omap snd (integrate (FO := function_object (fun _ => 1%float)) Euler 20
                  (mkNumericalIntegration 0.1%float tt)
                  (of_int 10 * 0.1)%float 0%float 0%float)
      = Some 1.0999999999999999%float
    & (0 + (of_int 10 * 0.1) * 1)%float = 1%float /\
      iter 10 (euler_step (fun _ => 1%float) 0.1%float) 0%float
      = 0.99999999999999989%float].
Proof.
split.
- by split; [exact: function_object_computes |].
- by move/(congr1 (omap Prim2SF)); vm_compute.
- by vm_compute.
- by vm_compute.
- by split; vm_compute.
Qed.
End Double.

(** ** The sign of a difference

    On doubles a positive number minus a number that is zero or negative
    is positive again, whatever the rounding: the difference of the two
    mantissas is a sum, and rounding a positive mantissa at an exponent of
    the format never gives zero. *)
Section SubtractionSign.

(** [iter_pos] is iteration. *)
Lemma iter_posE (A : Type) (g : A -> A) (p : positive) (x : A) :
  iter_pos g p x = iter (Pos.to_nat p) g x.
Proof.
elim: p x => [p IHp|p IHp|] x //; rewrite [LHS]/=.
- rewrite !IHp Pos2Nat.inj_xI -[(2 * _)%coq_nat]/(muln 2 _) mul2n -addnn.
  by rewrite -iterSr -iterD addnS.
- rewrite !IHp Pos2Nat.inj_xO -[(2 * _)%coq_nat]/(muln 2 _) mul2n -addnn.
  by rewrite -iterD.
Qed.

(** Shifting a mantissa right by fewer bits than it has leaves a positive
    mantissa. *)
Lemma shr_1_iter_pos (n : nat) (m : positive) (r s : bool) :
  Z.lt (Z.of_nat n) (Zpos (digits2_pos m)) ->
  exists m', shr_m (iter n shr_1 (Build_shr_record (Zpos m) r s)) = Zpos m'.
Proof.
elim: n m r s => [|n IHn] m r s Hn; first by exists m.
rewrite iterSr; case: m Hn => [q|q|] /= Hn; try (apply: IHn; lia).
lia.
Qed.

Lemma shr_fexp_pos (m : positive) (e : Z) (l : location) :
  Z.le (SpecFloat.emin prec emax) e ->
  (exists m', shr_m (shr_fexp prec emax (Zpos m) e l).1 = Zpos m') /\
  Z.le (SpecFloat.emin prec emax) (shr_fexp prec emax (Zpos m) e l).2.
Proof.
rewrite /shr_fexp /shr => He.
have Hrec: exists r s, shr_record_of_loc (Zpos m) l = Build_shr_record (Zpos m) r s.
  by case: l => [|[]]; do 2!eexists.
case: Hrec => r [s ->].
case Hn: (Z.sub _ e) => [|p|p]; try by split=> //; eexists.
move: He Hn; rewrite /fexp /SpecFloat.emin /prec /emax /Zdigits2 => He Hn.
split; last by rewrite [_.2]/=; lia.
by rewrite iter_posE; apply: shr_1_iter_pos; lia.
Qed.

(** Rounding a positive mantissa at an exponent that is not below [emin]
    does not underflow to zero. *)
Lemma binary_round_aux_pos (m : positive) (e : Z) (l : location) :
  Z.le (SpecFloat.emin prec emax) e ->
  SFpositive (binary_round_aux prec emax false (Zpos m) e l).
Proof.
move=> He; rewrite /binary_round_aux.
case: (shr_fexp_pos m l He).
case: (shr_fexp prec emax (Zpos m) e l) => mrs1 e1 /= [m1 Hm1] He1.
have [m2 ->]: exists m2,
    round_nearest_even (shr_m mrs1) (loc_of_shr_record mrs1) = Zpos m2.
  rewrite Hm1; case: (loc_of_shr_record mrs1) => [|[]] /=; try by eexists.
  by case: m1 {Hm1} => [q|q|] /=; eexists.
case: (shr_fexp_pos m2 loc_Exact He1).
case: (shr_fexp prec emax (Zpos m2) e1 loc_Exact) => mrs2 e2 /= [m3 ->] _.
by case: (Z.leb e2 _).
Qed.

Lemma binary_round_pos (m : positive) (e : Z) :
  Z.le (SpecFloat.emin prec emax) e ->
  SFpositive (binary_round prec emax false m e).
Proof.
move=> He; rewrite /binary_round /shl_align.
case Hd: (Z.sub _ e) => [|p|p]; try exact: binary_round_aux_pos.
apply: binary_round_aux_pos; rewrite /fexp; lia.
Qed.

(** The exponent of a finite double is not below [emin]. *)
Lemma bounded_emin (m : positive) (e : Z) :
  bounded prec emax m e -> Z.le (SpecFloat.emin prec emax) e.
Proof.
rewrite /bounded /canonical_mantissa /fexp.
by case/andP=> /Z.eqb_eq He _; lia.
Qed.

(** A positive number minus a number that is zero or negative is
    positive. *)
Lemma SF64sub_pos (x y : spec_float) :
  SpecFloat.valid_binary prec emax x -> SpecFloat.valid_binary prec emax y ->
  SFpositive x -> SFleb y (S754_zero false) ->
  SFpositive (SF64sub x y).
Proof.
case: x => [sx|[]||[] mx ex] //; case: y => [sy|[]||[] my ey] //=.
move=> /bounded_emin Hx /bounded_emin Hy _ _.
by apply: binary_round_pos; lia.
Qed.

Lemma double_sub_nonpositive (t h : float) :
  PrimFloat.ltb 0 t -> PrimFloat.leb h 0 ->
  PrimFloat.ltb 0 (PrimFloat.sub t h).
Proof.
rewrite !ltb_spec leb_spec sub_spec.
have ->: Prim2SF 0 = S754_zero false by [].
move=> Ht Hh.
exact: (SF64sub_pos (Prim2SF_valid t) (Prim2SF_valid h) Ht Hh).
Qed.

End SubtractionSign.

(** ** Termination *)
Section Termination.
Variables (R : archiRealFieldType) (V : lmodType R).
Variables (Functor : Type) (FO : FunctorOps Functor V).
Variables (ValueType' Functor' : Type).
Variables (VO' : ValueOps float ValueType').
Variables (FO' : FunctorOps Functor' ValueType').

(** With a step size that is zero or negative the remaining span stays
    positive. *)
Lemma double_never_exits (h0 t : float) :
  PrimFloat.leb h0 0 -> PrimFloat.ltb 0 t ->
  never_exits (SO := double_scalar) h0 t.
Proof.
move=> Hh Ht k; rewrite /sgt /=.
elim: k => [|k IHk] //; rewrite span_afterS /=.
exact: double_sub_nonpositive.
Qed.

(** C4.  For a step size [h > 0], in exact arithmetic, [integrate]
    terminates for every time span (and every selector): with enough
    iterations allowed it returns.  For [h <= 0] and [timeSpan > 0] the
    test [t > 0] after [t -= h] never fails, in exact arithmetic and on
    doubles alike: the Euler and the RungeKutta method do not return,
    however many iterations are allowed. *)
Theorem integrate_termination mode
    (this : NumericalIntegration R Functor) (t : R) (x0 xout : V)
    (that : NumericalIntegration float Functor') (td : float)
    (y0 yout : ValueType') :
  [/\ (0 < h this)%R ->
      exists n, forall fuel, n <= fuel ->
        exists o,
          integrate (SO := exact_scalar R) (VO := exact_value V)
            mode fuel this t x0 xout = Some o,
      (h this <= 0)%R -> (0 < t)%R -> mode = Euler \/ mode = RungeKutta ->
      forall fuel,
        integrate (SO := exact_scalar R) (VO := exact_value V)
          mode fuel this t x0 xout = None
    & PrimFloat.leb (h that) 0 -> PrimFloat.ltb 0 td ->
      mode = Euler \/ mode = RungeKutta ->
      forall fuel,
        integrate (SO := double_scalar) mode fuel that td y0 yout = None].
Proof.
case: (@exact_termination R V Functor FO mode this t x0 xout) => Hpos Hneg.
split=> // Hh Ht Hmode fuel.
have Hv: valid_mode mode.
  by rewrite /valid_mode; case: Hmode => ->; rewrite eqxx ?orbT.
rewrite integrateE // method_loop_out // => k _.
exact: double_never_exits.
Qed.

End Termination.


(* ===================================================================== *)
(** * Part VII: the theorems at concrete inputs                           *)
(* ===================================================================== *)

Section RationalRuns.

#[local] Existing Instance exact_scalar.
#[local] Existing Instance exact_value.

Local Open Scope ring_scope.

(** Two Euler steps of size 1/2 from 1: [(3/2)^2]. *)
Example euler_growth_run :
  omap snd (integrate (FO := growth) Euler 5 (stepper (1 / 2%:R)) 1 1 0)
  == Some (9%:R / 4%:R : rat^o).
Proof. by vm_compute. Qed.

(** One RK4 step of size 1 from 1: [1 + 1 + 1/2 + 1/6 + 1/24]. *)
Example rk4_growth_run :
  omap snd (integrate (FO := growth) RungeKutta 5 (stepper 1) 1 1 0)
  == Some (65%:R / 24%:R : rat^o).
Proof. by vm_compute. Qed.

(** A time span of 1 with steps of 2/5 takes [ceil (5/2) = 3] steps and
    ends at time 6/5. *)
Example euler_overshoot_run :
  (omap (fun r => (r.1, r.2.2))
        (ForwardEuler (FO := unit_slope) 5 (stepper (2%:R / 5%:R)) 1 0 0)
   == Some (3, 6%:R / 5%:R : rat^o))
  && (ceil_steps (1 : rat) (2%:R / 5%:R) == 3).
Proof. by vm_compute. Qed.

(** A selector outside the enumeration leaves [xout] alone. *)
Example invalid_mode_run :
  omap snd (integrate (FO := growth) 2 5 (stepper 1) 1 1 (7%:R : rat^o))
  == Some (7%:R : rat^o).
Proof. by vm_compute. Qed.

Lemma integrate_euler_recurrence_witness :
  computes (FO := growth) tt (fun x => x) /\
  omap snd (integrate (FO := growth) Euler 5 (stepper (1 / 2%:R)) 1 1 0)
  = euler_recurrence (fun x : rat^o => x) (1 / 2%:R : rat) 5 1 1.
Proof.
split; first exact: function_object_computes.
by case: (integrate_euler_recurrence (FO := growth) (1 / 2%:R) 1 1 0
            (function_object_computes _)) => Hrec _; apply: Hrec.
Defined.

Lemma integrate_rk4_recurrence_witness :
  computes (FO := growth) tt (fun x => x) /\
  omap snd (integrate (FO := growth) RungeKutta 5 (stepper 1) 1 1 0)
  = rk4_recurrence (fun x : rat^o => x) (1 : rat) 5 1 1.
Proof.
split; first exact: function_object_computes.
by case: (integrate_rk4_recurrence (FO := growth) 1 1 1 0
            (function_object_computes _)) => Hrec _; apply: Hrec.
Defined.

Lemma exact_step_count_witness :
  [/\ 0 < 2%:R / 5%:R :> rat, 0 < 1 :> rat
    & exists o, ForwardEuler (FO := unit_slope) 3 (stepper (2%:R / 5%:R)) 1 0 0
                = Some (ceil_steps (1 : rat) (2%:R / 5%:R), o)].
Proof.
have Hh: 0 < 2%:R / 5%:R :> rat by [].
have Ht: 0 < 1 :> rat by [].
split=> //.
case: (@exact_step_count _ _ _ unit_slope (stepper (2%:R / 5%:R)) 1
         (0 : rat^o) (0 : rat^o) Hh Ht) => Hrun _ _ _ _.
by case: (Hrun 3%N) => [|Heuler _] //; vm_compute.
Defined.

Lemma euler_constant_derivative_witness :
  omap snd (integrate (FO := unit_slope) Euler 4 (stepper (1 / 2%:R))
              (4%:R * (1 / 2%:R)) 1 0)
  = Some (1 + (4%:R * (1 / 2%:R)) *: 1 : rat^o).
Proof.
apply: (@euler_constant_derivative _ _ _ unit_slope) => //.
exact: function_object_computes.
Defined.

Lemma constant_derivative_methods_agree_witness :
  omap snd (integrate (FO := unit_slope) Euler 4 (stepper (1 / 2%:R)) 1 1 0)
  = omap snd (integrate (FO := unit_slope) RungeKutta 4 (stepper (1 / 2%:R))
                1 1 0).
Proof.
apply: (@constant_derivative_methods_agree _ _ _ unit_slope tt 1).
exact: function_object_computes.
Defined.

Lemma integrate_linear_witness :
  omap snd (integrate (FO := growth) RungeKutta 4 (stepper (1 / 2%:R)) 1
              (2%:R *: 1 + 3%:R *: 5%:R) 0)
  = combine (2%:R : rat) 3%:R
      (omap snd (integrate (FO := growth) RungeKutta 4 (stepper (1 / 2%:R))
                   1 1 0))
      (omap snd (integrate (FO := growth) RungeKutta 4 (stepper (1 / 2%:R))
                   1 5%:R 0)).
Proof.
apply: (@integrate_linear _ _ _ growth (fun x => x)) => //.
- exact: function_object_computes.
- by right.
Defined.

End RationalRuns.

Section DoubleRuns.

#[local] Existing Instance double_scalar.
#[local] Existing Instance double_value.

(** The literals of the class body convert exactly. *)
Example double_literals :
  (of_int 0, of_int 2, of_int 6) = (0%float, 2%float, 6%float).
Proof. by vm_compute. Qed.

(** Four Euler steps of size 1/4 with slope 1: no rounding occurs. *)
Example double_euler_run :
  integrate (FO := function_object (fun _ => 1%float)) Euler 10
    (mkNumericalIntegration 0.25%float tt) 1%float 0%float 0%float
  = Some (mkNumericalIntegration 0.25%float tt, 1%float).
Proof. by vm_compute. Qed.

(** Exponential decay [f(x) = -x] from 1 over a time span of 1 with RK4 and
    [h = 0.01]: 100 steps, and [exp (-1)] to nine digits. *)
Example double_decay_run :
  omap (fun r => (r.1, r.2.2))
       (RK4 (FO := function_object PrimFloat.opp) 200
          (mkNumericalIntegration 0.01%float tt) 1%float 1%float 0%float)
  = Some (100, 0.36787944120235527%float).
Proof. by vm_compute. Qed.

(** Slope 1 from 0 with [h = 0.1] over [timeSpan = 10 * h] (the double
    [1.0]): the Euler loop runs 11 steps and returns about [11 * h], where
    exact arithmetic gives [10 * h = 1]. *)
Example double_slope_run :
  omap (fun r => (r.1, r.2.2))
       (ForwardEuler (FO := function_object (fun _ => 1%float)) 200
          (mkNumericalIntegration 0.1%float tt) (of_int 10 * 0.1)%float
          0%float 0%float)
  = Some (11, 1.0999999999999999%float).
Proof. by vm_compute. Qed.

Lemma integrate_nonpositive_span_witness :
  sle (ScalarLe := double_le) (-1)%float (of_int 0) /\
  integrate (FO := function_object (fun x : float => x)) RungeKutta 0
    (mkNumericalIntegration 0.1%float tt) (-1)%float 3%float 7%float
  = Some (mkNumericalIntegration 0.1%float tt, 3%float).
Proof.
split; first by [].
apply: (integrate_nonpositive_span (SL := double_le)); last by [].
  exact: double_coherent_order.
by right.
Defined.

Lemma integrate_invalid_mode_witness :
  [/\ (2 : IntegrationMode) <> Euler, (2 : IntegrationMode) <> RungeKutta
    & integrate (FO := function_object (fun x : float => x)) 2 0
        (mkNumericalIntegration 0.1%float tt) 1%float 3%float 7%float
      = Some (mkNumericalIntegration 0.1%float tt, 7%float)].
Proof.
have HE: (2 : IntegrationMode) <> Euler by [].
have HR: (2 : IntegrationMode) <> RungeKutta by [].
split; [exact: HE | exact: HR |].
by case: (@integrate_invalid_mode _ _ _ _ _
            (function_object (fun x : float => x)) 2 0
            (mkNumericalIntegration 0.1%float tt) 1%float 3%float 7%float
            HE HR).
Defined.

(** Two integrators whose counting functors have served 0 and 7 calls. *)
Lemma integrate_deterministic_witness :
  omap snd (integrate (FO := counting_functor (fun x : float => x)) Euler 10
              (mkNumericalIntegration 0.5%float 0) 1%float 1%float 0%float)
  = omap snd (integrate (FO := counting_functor (fun x : float => x)) Euler 10
                (mkNumericalIntegration 0.5%float 7) 1%float 1%float 5%float).
Proof.
case: (@integrate_deterministic _ _ _ _ _
         (counting_functor (fun x : float => x)) (fun x => x) Euler 10
         (mkNumericalIntegration 0.5%float 0)
         (mkNumericalIntegration 0.5%float 7)
         1%float 1%float 0%float 5%float) => //.
- exact: counting_functor_computes.
- exact: counting_functor_computes.
- by left.
Defined.

End DoubleRuns.

Section TerminationRuns.

Local Open Scope ring_scope.

Lemma integrate_termination_witness :
  [/\ exists n, forall fuel, (n <= fuel)%N ->
        exists o,
          integrate (SO := exact_scalar rat) (VO := exact_value rat^o)
            (FO := growth) Euler fuel (stepper 1) 3%:R 1 0 = Some o,
      forall fuel,
        integrate (SO := exact_scalar rat) (VO := exact_value rat^o)
          (FO := growth) RungeKutta fuel (stepper (-1)) 3%:R 1 0 = None
    & forall fuel,
        integrate (SO := double_scalar) (VO := double_value)
          (FO := function_object (fun x : float => x)) RungeKutta fuel
          (mkNumericalIntegration (-0.5)%float tt) 1%float 1%float 0%float
        = None].
Proof.
split.
- case: (@integrate_termination _ _ _ growth _ _ double_value
           (function_object (fun x : float => x)) Euler (stepper 1) 3%:R
           (1 : rat^o) (0 : rat^o)
           (mkNumericalIntegration (-0.5)%float tt) 1%float 1%float 0%float)
    => Hterm _ _.
  exact: Hterm.
- case: (@integrate_termination _ _ _ growth _ _ double_value
           (function_object (fun x : float => x)) RungeKutta
           (stepper (-1)) 3%:R (1 : rat^o) (0 : rat^o)
           (mkNumericalIntegration (-0.5)%float tt) 1%float 1%float 0%float)
    => _ Hloop _.
  by apply: Hloop; [| | right].
- case: (@integrate_termination _ _ _ growth _ _ double_value
           (function_object (fun x : float => x)) RungeKutta
           (stepper (-1)) 3%:R (1 : rat^o) (0 : rat^o)
           (mkNumericalIntegration (-0.5)%float tt) 1%float 1%float 0%float)
    => _ _ Hloop.
  by apply: Hloop; [| | right].
Defined.

End TerminationRuns.

(* ===================================================================== *)
(** * Part VIII: further properties of the class                          *)
(* ===================================================================== *)

(** ** The number of iterations *)
Section IterationCount.
Context {Scalar : Type} {SO : ScalarOps Scalar}.
Context {ValueType Functor : Type}.
Context {VO : ValueOps Scalar ValueType} {FO : FunctorOps Functor ValueType}.
Context {ValueType' Functor' : Type}.
Context {VO' : ValueOps Scalar ValueType'}.
Context {FO' : FunctorOps Functor' ValueType'}.

Implicit Types (t : Scalar) (x : ValueType) (y : ValueType').
Implicit Types (this : NumericalIntegration Scalar Functor).
Implicit Types (that : NumericalIntegration Scalar Functor').

Lemma method_loop_same_count mode mode' fuel this that t x y :
  h this = h that ->
  omap fst (method_loop mode fuel this t x)
  = omap fst (method_loop mode' fuel that t y).
Proof.
move=> Hh.
case Hrun: (method_loop mode fuel this t x) => [[n r]|] /=.
  case: (method_loop_inv Hrun) => Hn; rewrite Hh => Hexit.
  by case: (method_loop_count mode' y Hexit Hn) => r' ->.
case Hrun': (method_loop mode' fuel that t y) => [[n r]|] //=.
case: (method_loop_inv Hrun') => Hn; rewrite -Hh => Hexit.
by case: (method_loop_count mode x Hexit Hn) => r'; rewrite Hrun.
Qed.

Lemma omap_fst_leave (F : Type) (W : Type) (obj : NumericalIntegration Scalar F)
    (o : option (nat * frame Scalar W F)) :
  omap fst (omap (leave obj) o) = omap fst o.
Proof. by case: o => [[n [[t y] g]]|]. Qed.

(** X1.  The number of iterations depends on the step size and on the time
    span only: two calls with the same [h] and the same [time_span] run the
    same number of iterations (or both need more than [fuel]), whatever
    the method, the value types, the functors, the initial states and the
    previous contents of [xout]. *)
Theorem iteration_count_independent fuel this that t x0 y0 xout yout :
  h this = h that ->
  [/\ omap fst (ForwardEuler fuel this t x0 xout)
      = omap fst (ForwardEuler fuel that t y0 yout),
      omap fst (ForwardEuler fuel this t x0 xout)
      = omap fst (RK4 fuel that t y0 yout)
    & omap fst (RK4 fuel this t x0 xout)
      = omap fst (RK4 fuel that t y0 yout)].
Proof.
move=> Hh; rewrite !ForwardEulerE !RK4E !omap_fst_leave.
by split; apply: method_loop_same_count.
Qed.

End IterationCount.

(** ** The calls of the functor *)
Section CallSequence.
Context {Scalar ValueType Functor : Type}.
Context {SO : ScalarOps Scalar} {VO : ValueOps Scalar ValueType}.
Context {FO : FunctorOps Functor ValueType}.

Implicit Types (h t : Scalar) (x : ValueType) (g : Functor).
Implicit Types (this : NumericalIntegration Scalar Functor).
Implicit Types (d : ValueType -> ValueType) (I : Functor -> Prop).

(** The bodies, without the pattern matching on the result of a call. *)
Lemma euler_bodyE h t x g :
  euler_body h (t, x, g)
  = (t, vadd x (vscale h (call g x).2), (call g x).1).
Proof. by rewrite /euler_body; case: (call g x). Qed.

Lemma thread_calls_cat g (s1 s2 : seq ValueType) :
  thread_calls g (s1 ++ s2) = thread_calls (thread_calls g s1) s2.
Proof. by rewrite /thread_calls foldl_cat. Qed.

Lemma thread_calls_law I d g (s : seq ValueType) :
  call_law I d -> I g -> I (thread_calls g s).
Proof.
move=> HI; elim: s g => [|x s IHs] g Ig //=.
by apply: IHs; case: (HI g x Ig).
Qed.

Lemma rk4_body_calls I d h t x g :
  call_law I d -> I g ->
  rk4_body h (t, x, g)
  = (t, rk4_step d h x, thread_calls g (rk4_points d h x)).
Proof.
move=> HI Ig; rewrite /rk4_body /rk4_step /rk4_points /thread_calls /=.
case: (HI g x Ig); case: (call g x) => g1 k1 /= Ig1 ->.
case: (HI g1 (vadd x (vscale (sdiv h (of_int 2)) (d x))) Ig1).
case: (call g1 _) => g2 k2 /= Ig2 ->.
case: (HI g2 (vadd x (vscale (sdiv h (of_int 2))
         (d (vadd x (vscale (sdiv h (of_int 2)) (d x)))))) Ig2).
case: (call g2 _) => g3 k3 /= Ig3 ->.
set x3 := vadd x (vscale h _).
by case: (HI g3 x3 Ig3); case: (call g3 _) => g4 k4 /= Ig4 ->.
Qed.

Lemma iter_euler_calls I d h k t x g :
  call_law I d -> I g ->
  iter k (fun s => loop_incr h (euler_body h s)) (t, x, g)
  = (span_after h k t, iter k (euler_step d h) x,
     thread_calls g (traject (euler_step d h) x k)).
Proof.
move=> HI Ig; elim: k => [|k IHk] //.
rewrite iterS IHk euler_bodyE trajectSr /thread_calls foldl_rcons.
rewrite -/(thread_calls g _).
case: (HI _ (iter k (euler_step d h) x)
          (thread_calls_law (traject (euler_step d h) x k) HI Ig)) => _ ->.
by [].
Qed.

Lemma iter_rk4_calls I d h k t x g :
  call_law I d -> I g ->
  iter k (fun s => loop_incr h (rk4_body h s)) (t, x, g)
  = (span_after h k t, iter k (rk4_step d h) x,
     thread_calls g
       (flatten [seq rk4_points d h y | y <- traject (rk4_step d h) x k])).
Proof.
move=> HI Ig; elim: k => [|k IHk] //.
rewrite iterS IHk trajectSr map_rcons flatten_rcons thread_calls_cat.
by rewrite (rk4_body_calls _ _ _ HI) //; apply: (thread_calls_law _ HI Ig).
Qed.

(** X2.  A call of [ForwardEuler] that runs [n] iterations evaluates the
    derivative exactly once per iteration, at the states [x0], [x1], ...,
    [x(n-1)] it passes through, in this order, and never at the final
    state: the functor object it leaves is the initial one after calls on
    these points, and [xout] holds [xn]. *)
Theorem euler_call_sequence d fuel this t x0 xout n :
  computes (f this) d -> exits_after (h this) t n -> n <= fuel ->
  ForwardEuler fuel this t x0 xout
  = Some (n, (mkNumericalIntegration (h this)
                (thread_calls (f this)
                   (traject (euler_step d (h this)) x0 n)),
              iter n (euler_step d (h this)) x0)).
Proof.
case=> I Ig HI [Hlt Hexit] Hfuel; rewrite /ForwardEuler.
have Hiter k := iter_euler_calls (h this) k t x0 HI Ig.
rewrite (@for_loop_exit _ _ _ _ n) ?add0n ?Hiter //.
by move=> k Hk; rewrite Hiter; apply: Hlt.
Qed.

(** X3.  A call of [RK4] that runs [n] iterations evaluates the derivative
    four times per iteration, at [x], [x + h/2 * k1], [x + h/2 * k2] and
    [x + h * k3] for each state [x] it passes through, in this order. *)
Theorem rk4_call_sequence d fuel this t x0 xout n :
  computes (f this) d -> exits_after (h this) t n -> n <= fuel ->
  RK4 fuel this t x0 xout
  = Some (n, (mkNumericalIntegration (h this)
                (thread_calls (f this)
                   (flatten [seq rk4_points d (h this) y
                            | y <- traject (rk4_step d (h this)) x0 n])),
              iter n (rk4_step d (h this)) x0)).
Proof.
case=> I Ig HI [Hlt Hexit] Hfuel; rewrite /RK4.
have Hiter k := iter_rk4_calls (h this) k t x0 HI Ig.
rewrite (@for_loop_exit _ _ _ _ n) ?add0n ?Hiter //.
by move=> k Hk; rewrite Hiter; apply: Hlt.
Qed.

(** The whole outcome of a call of [integrate] whose loop leaves after
    [n] iterations. *)
Lemma integrate_exits_outcome mode d fuel this t x0 xout n :
  valid_mode mode -> computes (f this) d ->
  exits_after (h this) t n -> n <= fuel ->
  exists2 g', computes g' d &
    integrate mode fuel this t x0 xout
    = Some (mkNumericalIntegration (h this) g',
            iter n (method_step d (h this) mode) x0).
Proof.
move=> Hmode Hd Hexit Hfuel; rewrite integrateE //.
case: (method_loop_exits mode x0 Hd Hexit Hfuel) => g' Hg' ->.
by exists g'.
Qed.

End CallSequence.

(** What the recording and the counting functor make of a sequence of
    calls. *)
Lemma recording_thread (ValueType : Type) (d : ValueType -> ValueType)
    (log s : seq ValueType) :
  thread_calls (FO := recording_functor d) log s = log ++ s.
Proof.
elim: s log => [|x s IHs] log /=; first by rewrite cats0.
by rewrite IHs cat_rcons.
Qed.

Lemma counting_thread (ValueType : Type) (d : ValueType -> ValueType)
    (calls : nat) (s : seq ValueType) :
  thread_calls (FO := counting_functor d) calls s = calls + size s.
Proof.
elim: s calls => [|x s IHs] calls /=; first by rewrite addn0.
by rewrite IHs addSnnS.
Qed.

Lemma recording_functor_computes (ValueType : Type)
    (d : ValueType -> ValueType) (log : seq ValueType) :
  computes (FO := recording_functor d) log d.
Proof. by exists (fun _ => True). Qed.

Lemma size_rk4_points (Scalar ValueType : Type) (SO : ScalarOps Scalar)
    (VO : ValueOps Scalar ValueType) (d : ValueType -> ValueType)
    (h : Scalar) (s : seq ValueType) :
  size (flatten [seq rk4_points d h y | y <- s]) = 4 * size s.
Proof. by elim: s => [|x s IHs] //=; rewrite IHs mulnS. Qed.

(** X4.  The cost in evaluations of the derivative, read on a functor that
    counts its calls: a call of [ForwardEuler] that runs [n] iterations
    raises the counter by [n], a call of [RK4] by [4 * n]. *)
Theorem functor_call_count (Scalar ValueType : Type) (SO : ScalarOps Scalar)
    (VO : ValueOps Scalar ValueType) (d : ValueType -> ValueType)
    fuel (h0 t : Scalar) (calls : nat) (x0 xout : ValueType) n :
  exits_after h0 t n -> n <= fuel ->
  omap (fun r => f r.2.1)
       (ForwardEuler (FO := counting_functor d) fuel
          (mkNumericalIntegration h0 calls) t x0 xout)
  = Some (calls + n) /\
  omap (fun r => f r.2.1)
       (RK4 (FO := counting_functor d) fuel
          (mkNumericalIntegration h0 calls) t x0 xout)
  = Some (calls + 4 * n).
Proof.
case=> Hlt Hexit Hfuel.
have [I Ic HI] := counting_functor_computes d calls.
have HiterE k :
    iter k (fun s => loop_incr h0
                        (euler_body (FO := counting_functor d) h0 s))
         (t, x0, calls)
    = (span_after h0 k t, iter k (euler_step d h0) x0, calls + k).
  by rewrite (iter_euler_calls h0 k t x0 HI Ic) counting_thread size_traject.
have HiterR k :
    iter k (fun s => loop_incr h0
                        (rk4_body (FO := counting_functor d) h0 s))
         (t, x0, calls)
    = (span_after h0 k t, iter k (rk4_step d h0) x0, calls + 4 * k).
  rewrite (iter_rk4_calls h0 k t x0 HI Ic) counting_thread.
  by rewrite size_rk4_points size_traject.
split.
  rewrite /ForwardEuler (@for_loop_exit _ _ _ _ n) ?add0n ?HiterE //.
  by move=> k Hk; rewrite HiterE; apply: Hlt.
rewrite /RK4 (@for_loop_exit _ _ _ _ n) ?add0n ?HiterR //.
by move=> k Hk; rewrite HiterR; apply: Hlt.
Qed.

(** ** Properties in exact arithmetic *)
Section ExactProperties.
Variables (R : archiRealFieldType) (V : lmodType R).
Variables (Functor : Type) (FO : FunctorOps Functor V).

#[local] Existing Instance exact_scalar.
#[local] Existing Instance exact_value.

Local Open Scope ring_scope.

Implicit Types (t : R) (x y : V) (g : Functor) (n k m : nat).
Implicit Types (this : NumericalIntegration R Functor).
Implicit Types (d : V -> V) (mode : IntegrationMode).

Lemma valid_modeP mode : mode = Euler \/ mode = RungeKutta -> valid_mode mode.
Proof. by rewrite /valid_mode; case=> ->; rewrite eqxx ?orbT. Qed.

(** *** Equilibria *)

Lemma method_step_fixed mode d (h0 : R) x :
  d x = 0 -> method_step d h0 mode x = x.
Proof.
move=> Hd; rewrite /method_step; case: ifP => _.
  by rewrite /euler_step /= Hd scaler0 addr0.
by rewrite /rk4_step /= !(Hd, scaler0, addr0).
Qed.

(** X5.  A state at which the derivative vanishes is kept by both methods:
    started at an equilibrium [x0] of [f], a call that runs any number [n]
    of iterations returns [x0] itself, for every step size. *)
Theorem equilibrium_preserved d mode fuel this t x0 xout n :
  mode = Euler \/ mode = RungeKutta -> computes (f this) d ->
  d x0 = 0 -> exits_after (h this) t n -> (n <= fuel)%N ->
  omap snd (integrate mode fuel this t x0 xout) = Some x0.
Proof.
move=> /valid_modeP Hmode Hd Hx0 Hexit Hfuel.
rewrite (integrate_exits x0 xout Hmode Hd Hexit Hfuel); congr Some.
by apply: iter_fix; apply: method_step_fixed.
Qed.

(** *** Splitting the time span *)

Lemma exits_after_multiple (h0 : R) m : 0 < h0 -> exits_after h0 (m%:R * h0) m.
Proof.
move=> Hh; split=> [k Hk|]; rewrite loop_testE ?ltxx //.
by rewrite ltr_pM2r // ltr_nat.
Qed.

Lemma exits_after_add (h0 : R) t m n :
  0 < h0 -> 0 <= t -> exits_after h0 t n ->
  exits_after h0 (m%:R * h0 + t) (m + n).
Proof.
move=> Hh Ht [Hlt Hexit]; split=> [k Hk|]; rewrite loop_testE; last first.
  by rewrite natrD mulrDl ltrD2l -loop_testE.
case: (ltnP k m) => Hkm.
  apply: lt_le_trans (_ : m%:R * h0 <= _); last by rewrite lerDl.
  by rewrite ltr_pM2r // ltr_nat.
rewrite -(subnKC Hkm) natrD mulrDl ltrD2l -loop_testE; apply: Hlt.
by rewrite ltn_subLR.
Qed.

(** X6.  Integration can be split at a multiple of the step size: for
    [h > 0] and [t >= 0], integrating over [m * h] and then, from the state
    reached, over [t], leaves the same final state as one call over
    [m * h + t].  All three calls return as soon as [m + n] iterations are
    allowed, where [n] is the number of iterations over [t]. *)
Theorem integrate_split d mode fuel this t x0 xout m n :
  mode = Euler \/ mode = RungeKutta -> computes (f this) d ->
  0 < h this -> 0 <= t -> exits_after (h this) t n -> (m + n <= fuel)%N ->
  exists this1 x1 this2 x2,
    [/\ integrate mode fuel this (m%:R * h this) x0 xout = Some (this1, x1),
        integrate mode fuel this1 t x1 x1 = Some (this2, x2)
      & omap snd (integrate mode fuel this (m%:R * h this + t) x0 xout)
        = Some x2].
Proof.
move=> /valid_modeP Hmode Hd Hh Ht Hexit Hfuel.
have Hm: (m <= fuel)%N by apply: leq_trans Hfuel; apply: leq_addr.
have Hn: (n <= fuel)%N by apply: leq_trans Hfuel; apply: leq_addl.
case: (integrate_exits_outcome x0 xout Hmode Hd
         (exits_after_multiple m Hh) Hm) => g1 Hg1 Hrun1.
set x1 := iter m _ x0 in Hrun1.
case: (@integrate_exits_outcome _ _ _ _ _ _ mode d fuel
         (mkNumericalIntegration (h this) g1) t x1 x1 n Hmode Hg1 Hexit Hn)
  => g2 Hg2 Hrun2.
exists (mkNumericalIntegration (h this) g1), x1.
exists (mkNumericalIntegration (h this) g2).
exists (iter n (method_step d (h this) mode) x1); split=> //.
rewrite (integrate_exits x0 xout Hmode Hd (exits_after_add m Hh Ht Hexit) Hfuel).
by rewrite addnC iterD.
Qed.

(** *** The test equation [x' = lam * x] *)

Lemma euler_step_scale (lam h0 : R) x :
  euler_step (fun y => lam *: y) h0 x = (1 + h0 * lam) *: x.
Proof. by rewrite /euler_step /= scalerA scalerDl scale1r. Qed.

Lemma rk4_step_scale (lam h0 : R) x :
  rk4_step (fun y => lam *: y) h0 x = rk4_factor (h0 * lam) *: x.
Proof.
rewrite /rk4_step /rk4_factor /= -[x]scale1r !(scalerDr, scalerA) -!scalerDl.
by congr (_ *: _); field.
Qed.

Lemma iter_scale (c : R) n x : iter n (fun y => c *: y) x = c ^+ n *: x.
Proof.
elim: n => [|n IHn]; first by rewrite expr0 scale1r.
by rewrite iterS IHn scalerA exprS.
Qed.

(** X7.  On the linear test equation [f(x) = lam * x], for [h > 0] and
    [timeSpan > 0], the Euler method multiplies the initial state by
    [1 + h * lam] at each of its [n = ceil (timeSpan / h)] steps: it returns
    [(1 + h * lam) ^ n * x0]. *)
Theorem euler_amplification g (lam h0 t : R) x0 xout fuel :
  computes g (fun y => lam *: y) -> 0 < h0 -> 0 < t ->
  (ceil_steps t h0 <= fuel)%N ->
  omap snd (integrate Euler fuel (mkNumericalIntegration h0 g) t x0 xout)
  = Some ((1 + h0 * lam) ^+ ceil_steps t h0 *: x0).
Proof.
move=> Hd Hh Ht Hfuel.
rewrite (@integrate_exits _ _ _ _ _ _ Euler _ fuel
           (mkNumericalIntegration h0 g) t x0 xout _ _ Hd
           (exits_after_ceil Hh Ht) Hfuel) //.
congr Some; rewrite -iter_scale; apply: eq_iter => y.
exact: euler_step_scale.
Qed.

(** X8.  On the same equation the RK4 method multiplies the state at each
    step by the Taylor polynomial of degree 4 of the exponential at
    [z = h * lam], [1 + z + z^2/2 + z^3/6 + z^4/24]: it returns the [n]-th
    power of this factor times [x0], for [n = ceil (timeSpan / h)]. *)
Theorem rk4_amplification g (lam h0 t : R) x0 xout fuel :
  computes g (fun y => lam *: y) -> 0 < h0 -> 0 < t ->
  (ceil_steps t h0 <= fuel)%N ->
  omap snd (integrate RungeKutta fuel (mkNumericalIntegration h0 g)
                      t x0 xout)
  = Some (rk4_factor (h0 * lam) ^+ ceil_steps t h0 *: x0).
Proof.
move=> Hd Hh Ht Hfuel.
rewrite (@integrate_exits _ _ _ _ _ _ RungeKutta _ fuel
           (mkNumericalIntegration h0 g) t x0 xout _ _ Hd
           (exits_after_ceil Hh Ht) Hfuel) //.
congr Some; rewrite -iter_scale; apply: eq_iter => y.
exact: rk4_step_scale.
Qed.

(** *** Rescaling time *)

Lemma method_step_rescale mode d (c h0 : R) x :
  0 < c ->
  method_step (fun y => c^-1 *: d y) (c * h0) mode x = method_step d h0 mode x.
Proof.
move=> Hc; have Hc0: c != 0 by rewrite gt_eqF.
have Hs a y : (c * a) *: (c^-1 *: y) = a *: y.
  by rewrite scalerA mulrAC divff // mul1r.
have Hz a y : a *: (c^-1 *: y) = c^-1 *: (a *: y).
  by rewrite !scalerA mulrC.
rewrite /method_step; case: ifP => _; first by rewrite /euler_step /= Hs.
rewrite /rk4_step /= -!mulrA !Hs !Hz -!scalerDr.
by rewrite -[c * (h0 / _)]/(c * (h0 / _)) Hs.
Qed.

Lemma method_recurrence_rescale mode d (c h0 : R) fuel t x :
  0 < c ->
  method_recurrence (fun y => c^-1 *: d y) (c * h0) mode fuel (c * t) x
  = method_recurrence d h0 mode fuel t x.
Proof.
move=> Hc; elim: fuel t x => [|fuel IHf] t x.
  by rewrite !method_recurrence0 /= pmulr_rgt0.
rewrite !method_recurrenceS /= pmulr_rgt0 //; case: ifP => // _.
by rewrite method_step_rescale // -mulrBr IHf.
Qed.

(** *** The time span counts in whole steps *)

(** X9.  The result depends on the time span only through the number of
    steps: for [h > 0], two positive time spans with the same
    [ceil (timeSpan / h)] give the same final state (and need the same
    number of iterations). *)
Theorem time_span_quantised d mode fuel this t t' x0 xout :
  mode = Euler \/ mode = RungeKutta -> computes (f this) d ->
  0 < h this -> 0 < t -> 0 < t' ->
  ceil_steps t (h this) = ceil_steps t' (h this) ->
  omap snd (integrate mode fuel this t x0 xout)
  = omap snd (integrate mode fuel this t' x0 xout).
Proof.
move=> /valid_modeP Hmode Hd Hh Ht Ht' Hceil.
case: (leqP (ceil_steps t (h this)) fuel) => Hfuel.
  rewrite (integrate_exits x0 xout Hmode Hd (exits_after_ceil Hh Ht) Hfuel).
  rewrite Hceil in Hfuel *.
  by rewrite (integrate_exits x0 xout Hmode Hd (exits_after_ceil Hh Ht') Hfuel).
rewrite !integrateE //.
rewrite (@exact_run_short _ _ _ FO mode fuel this t x0 Hh Ht Hfuel).
rewrite Hceil in Hfuel.
by rewrite (@exact_run_short _ _ _ FO mode fuel this t' x0 Hh Ht' Hfuel).
Qed.

End ExactProperties.

Section TimeRescaling.
Variables (R : archiRealFieldType) (V : lmodType R).
Variables (Functor : Type) (FO : FunctorOps Functor V).
Variables (Functor' : Type) (FO' : FunctorOps Functor' V).

#[local] Existing Instance exact_scalar.
#[local] Existing Instance exact_value.

Local Open Scope ring_scope.

(** X10.  The result does not depend on the unit of time: for [c > 0],
    integrating the derivative [f / c] (computed by any functor, of the
    same type or not) with step size [c * h] over [c * timeSpan] leaves
    the same final state as integrating [f] with step size [h] over
    [timeSpan], after the same number of iterations. *)
Theorem time_rescaling (d : V -> V) (c h0 t : R) mode fuel
    (g : Functor) (g' : Functor') (x0 xout : V) :
  0 < c -> mode = Euler \/ mode = RungeKutta ->
  computes g d -> computes g' (fun y => c^-1 *: d y) ->
  omap snd (integrate mode fuel (mkNumericalIntegration (c * h0) g')
                      (c * t) x0 xout)
  = omap snd (integrate mode fuel (mkNumericalIntegration h0 g) t x0 xout).
Proof.
move=> Hc Hm Hd Hd'.
have Hmode: valid_mode mode.
  by rewrite /valid_mode; case: Hm => ->; rewrite eqxx ?orbT.
rewrite (@integrate_recurrence _ _ _ _ _ FO' mode _ fuel
           (mkNumericalIntegration (c * h0) g') (c * t) x0 xout Hmode Hd').
rewrite (@integrate_recurrence _ _ _ _ _ FO mode _ fuel
           (mkNumericalIntegration h0 g) t x0 xout Hmode Hd) /=.
exact: method_recurrence_rescale.
Qed.

End TimeRescaling.

(** *** Stability on the test equation *)
Section Stability.
Variable R : archiRealFieldType.
Variables (Functor : Type) (FO : FunctorOps Functor R^o).

#[local] Existing Instance exact_scalar.
#[local] Existing Instance exact_value.

Local Open Scope ring_scope.

Lemma euler_factor_le1 (z : R) : -2%:R <= z <= 0 -> `|1 + z| <= 1.
Proof. by case/andP=> Hlo Hhi; rewrite ler_norml; apply/andP; split; lra. Qed.

Lemma rk4_factor_le1 (z : R) : -2%:R <= z <= 0 -> `|rk4_factor z| <= 1.
Proof.
case/andP=> Hlo Hhi; rewrite ler_norml /rk4_factor.
have S1 := sqr_ge0 (z ^+ 2 + 2%:R * z).
have S2 := sqr_ge0 (z + 3%:R / 2%:R).
have S3 := sqr_ge0 (z + 1).
have H1: 0 <= z + 2%:R by lra.
have H2: 0 <= z ^+ 2 + 2%:R * z + 8%:R by nra.
have H3 := mulr_ge0 H1 H2.
have H4: z * ((z + 2%:R) * (z ^+ 2 + 2%:R * z + 8%:R) + 8%:R) <= 0.
  by rewrite mulr_le0_ge0 // addr_ge0 // ler0n.
by apply/andP; split; nra.
Qed.

Lemma power_contracts (c x : R) n : `|c| <= 1 -> `|c ^+ n * x| <= `|x|.
Proof.
move=> Hc; rewrite normrM normrX ler_piMl //.
by rewrite exprn_ile1.
Qed.

(** X11.  On the test equation [f(x) = lam * x] with a scalar state, with
    [h > 0] and [-2 <= h * lam <= 0], neither method lets the state grow:
    the final state is no larger in absolute value than the initial one,
    for every positive time span. *)
Theorem test_equation_stability mode (g : Functor) (lam h0 t : R)
    (x0 xout : R^o) fuel :
  mode = Euler \/ mode = RungeKutta ->
  computes g (fun y : R^o => lam *: y) -> 0 < h0 -> 0 < t ->
  -2%:R <= h0 * lam <= 0 -> (ceil_steps t h0 <= fuel)%N ->
  exists2 r : R^o,
    omap snd (integrate mode fuel (mkNumericalIntegration h0 g) t x0 xout)
    = Some r
    & `|r : R| <= `|x0 : R|.
Proof.
move=> Hmode Hd Hh Ht Hz Hfuel.
have Hv: valid_mode mode.
  by rewrite /valid_mode; case: Hmode => ->; rewrite eqxx ?orbT.
rewrite (@integrate_exits _ _ _ _ _ _ mode _ fuel
           (mkNumericalIntegration h0 g) t x0 xout _ Hv Hd
           (exits_after_ceil Hh Ht) Hfuel).
eexists; first by [].
case: Hmode => -> /=.
  rewrite (eq_iter (euler_step_scale lam h0)) iter_scale.
  exact: power_contracts (euler_factor_le1 Hz).
rewrite (eq_iter (rk4_step_scale lam h0)) iter_scale.
exact: power_contracts (rk4_factor_le1 Hz).
Qed.

End Stability.

(** ** A step that the time span absorbs *)
Section StalledSpan.
Context {Scalar ValueType Functor : Type}.
Context {SO : ScalarOps Scalar} {VO : ValueOps Scalar ValueType}.
Context {FO : FunctorOps Functor ValueType}.

Implicit Types (h t : Scalar) (x : ValueType).
Implicit Types (this : NumericalIntegration Scalar Functor).

Lemma span_after_stalled h k t : ssub t h = t -> span_after h k t = t.
Proof. by move=> Hsub; elim: k => [|k IHk] //; rewrite span_afterS IHk. Qed.

Lemma stalled_loop mode fuel this t x :
  ssub t (h this) = t -> sgt t (of_int 0) ->
  method_loop mode fuel this t x = None.
Proof.
by move=> Hsub Ht; apply: method_loop_out => k _; rewrite span_after_stalled.
Qed.

Lemma no_iteration mode fuel this t x0 xout :
  valid_mode mode -> sgt t (of_int 0) = false ->
  integrate mode fuel this t x0 xout = Some (this, x0).
Proof.
move=> Hmode Ht; rewrite integrateE // /method_loop.
by case: fuel => [|fuel] /=; rewrite Ht /=; case: this.
Qed.

(** X12.  When the decrement leaves a positive time span unchanged,
    [time_span - h == time_span], no call ever returns, for either method:
    the loop test sees the same value at every iteration.  (This is the case
    of [h = 0], and on floating-point numbers of every step size that
    [time_span] absorbs.) *)
Theorem stalled_span_never_returns mode fuel this t x0 xout :
  mode = Euler \/ mode = RungeKutta ->
  ssub t (h this) = t -> sgt t (of_int 0) ->
  integrate mode fuel this t x0 xout = None.
Proof.
move=> Hmode Hsub Ht.
have Hv: valid_mode mode.
  by rewrite /valid_mode; case: Hmode => ->; rewrite eqxx ?orbT.
by rewrite integrateE // stalled_loop.
Qed.

End StalledSpan.

(** ** Infinite and undefined durations on doubles *)
Section DoubleSpecial.
Context {ValueType Functor : Type}.
Context {VO : ValueOps float ValueType} {FO : FunctorOps Functor ValueType}.

#[local] Existing Instance double_scalar.

Implicit Types (h t : float) (x : ValueType) (g : Functor).

Lemma double_zero : of_int 0 = 0%float.
Proof. by []. Qed.

(** An infinite span absorbs every step size below [+infinity]. *)
Lemma double_sub_infinity h :
  PrimFloat.ltb h infinity -> PrimFloat.sub infinity h = infinity.
Proof.
rewrite ltb_spec => Hh; apply: Prim2SF_inj; rewrite sub_spec.
have ->: Prim2SF infinity = S754_infinity false by [].
by case: (Prim2SF h) Hh => [s|s||s m e] //; case: s.
Qed.

(** Every span absorbs the step sizes [+0] and [-0], unless it is a zero
    itself. *)
Lemma double_sub_zero h t :
  PrimFloat.eqb h 0 -> PrimFloat.ltb 0 t -> PrimFloat.sub t h = t.
Proof.
rewrite eqb_spec ltb_spec => Hh Ht; apply: Prim2SF_inj; rewrite sub_spec.
move: Hh Ht; have ->: Prim2SF 0 = S754_zero false by [].
case: (Prim2SF h) => [s|[]||[] m e] // _.
by case: (Prim2SF t) => [s'|[]||s' m' e'].
Qed.

(** A step size that is [NaN] or [+infinity] makes the span [NaN] or
    [-infinity]. *)
Lemma double_sub_nonfinite h t :
  PrimFloat.ltb h infinity = false ->
  PrimFloat.ltb 0 (PrimFloat.sub t h) = false.
Proof.
rewrite !ltb_spec sub_spec.
have ->: Prim2SF infinity = S754_infinity false by [].
have ->: Prim2SF 0 = S754_zero false by [].
case: (Prim2SF h) => [s|[]||[] m e] // _;
  by case: (Prim2SF t) => [s'|[]||s' m' e'].
Qed.

(** X13.  On doubles, with the time span [+infinity] and a step size below
    [+infinity] (any finite one, positive or not), no call ever returns:
    [infinity - h] is [infinity] again. *)
Theorem double_infinite_span mode fuel h g x0 xout :
  mode = Euler \/ mode = RungeKutta ->
  PrimFloat.ltb h infinity ->
  integrate mode fuel (mkNumericalIntegration h g) infinity x0 xout = None.
Proof.
move=> Hmode Hh.
have Hv: valid_mode mode.
  by rewrite /valid_mode; case: Hmode => ->; rewrite eqxx ?orbT.
by rewrite integrateE // stalled_loop //=; apply: double_sub_infinity.
Qed.

(** X14.  On doubles, with a step size [+0] or [-0] and a positive time
    span, no call ever returns. *)
Theorem double_zero_step mode fuel h t g x0 xout :
  mode = Euler \/ mode = RungeKutta ->
  PrimFloat.eqb h 0 -> PrimFloat.ltb 0 t ->
  integrate mode fuel (mkNumericalIntegration h g) t x0 xout = None.
Proof.
move=> Hmode Hh Ht.
have Hv: valid_mode mode.
  by rewrite /valid_mode; case: Hmode => ->; rewrite eqxx ?orbT.
by rewrite integrateE // stalled_loop //=; apply: double_sub_zero.
Qed.

(** X15.  On doubles, a time span that is [NaN] is treated like a
    non-positive one: the comparison [NaN > 0] is false, the loop body is
    never run, and [xout] receives [x0], whatever the step size. *)
Theorem double_nan_span mode fuel (this : NumericalIntegration float Functor)
    x0 xout :
  mode = Euler \/ mode = RungeKutta ->
  integrate mode fuel this nan x0 xout = Some (this, x0).
Proof.
move=> Hmode; apply: no_iteration => //.
by rewrite /valid_mode; case: Hmode => ->; rewrite eqxx ?orbT.
Qed.

(** X16.  On doubles, with a step size that is [NaN] or [+infinity] and a
    positive time span, both methods run exactly one iteration: the first
    decrement makes the span [NaN] or [-infinity], and the loop test
    fails. *)
Theorem double_nonfinite_step fuel h t g x0 xout :
  PrimFloat.ltb h infinity = false -> PrimFloat.ltb 0 t ->
  omap fst (ForwardEuler fuel.+1 (mkNumericalIntegration h g) t x0 xout)
  = Some 1 /\
  omap fst (RK4 fuel.+1 (mkNumericalIntegration h g) t x0 xout) = Some 1.
Proof.
move=> Hh Ht.
have Hexit: exits_after h t 1.
  split=> [[|k]|] //; rewrite span_afterS /=.
  exact: double_sub_nonfinite.
rewrite ForwardEulerE RK4E.
case: (@method_loop_count _ _ _ _ _ _ Euler fuel.+1
         (mkNumericalIntegration h g) t x0 1 Hexit) => // r1 ->.
case: (@method_loop_count _ _ _ _ _ _ RungeKutta fuel.+1
         (mkNumericalIntegration h g) t x0 1 Hexit) => // r2 ->.
by case: r1 => [[? ?] ?]; case: r2 => [[? ?] ?].
Qed.

End DoubleSpecial.

(** ** The properties at concrete inputs *)
Section RationalChecks.

#[local] Existing Instance exact_scalar.
#[local] Existing Instance exact_value.

Local Open Scope ring_scope.

Lemma half_steps : exits_after (1 / 2%:R : rat) 1 2.
Proof. by split=> [[|[|k]]|]. Qed.

Lemma equilibrium_preserved_witness :
  omap snd (integrate (FO := relaxation) RungeKutta 5 (stepper (1 / 2%:R))
              1 1 0)
  = Some (1 : rat^o).
Proof.
apply: (@equilibrium_preserved _ _ _ relaxation (fun x => 1 - x)
          RungeKutta 5 (stepper (1 / 2%:R)) 1 1 0 2).
- by right.
- exact: function_object_computes.
- exact: subrr.
- exact: half_steps.
- by [].
Defined.

Lemma integrate_split_witness :
  exists this1 x1 this2 x2,
    [/\ integrate (FO := growth) Euler 3 (stepper (1 / 2%:R))
          (2%:R * (1 / 2%:R)) 1 0 = Some (this1, x1),
        integrate (FO := growth) Euler 3 this1 (1 / 4%:R) x1 x1
        = Some (this2, x2)
      & omap snd (integrate (FO := growth) Euler 3 (stepper (1 / 2%:R))
                    (2%:R * (1 / 2%:R) + 1 / 4%:R) 1 0)
        = Some x2].
Proof.
apply: (@integrate_split _ _ _ growth (fun x => x) Euler 3
          (stepper (1 / 2%:R)) (1 / 4%:R) 1 0 2 1).
- by left.
- exact: function_object_computes.
- by [].
- by [].
- by split=> [[|k]|].
- by [].
Defined.

Lemma euler_amplification_witness :
  omap snd (integrate (FO := decay) Euler 2
              (mkNumericalIntegration (1 / 2%:R) tt) 1 1 0)
  = Some ((1 + 1 / 2%:R * (-1 : rat)) ^+ ceil_steps (1 : rat) (1 / 2%:R)
          *: (1 : rat^o)).
Proof.
apply: (@euler_amplification _ _ _ decay tt (-1) (1 / 2%:R) 1 1 0 2).
- exact: function_object_computes.
- by [].
- by [].
- by vm_compute.
Defined.

Lemma rk4_amplification_witness :
  omap snd (integrate (FO := decay) RungeKutta 2
              (mkNumericalIntegration (1 / 2%:R) tt) 1 1 0)
  = Some (rk4_factor (1 / 2%:R * (-1 : rat))
            ^+ ceil_steps (1 : rat) (1 / 2%:R) *: (1 : rat^o)).
Proof.
apply: (@rk4_amplification _ _ _ decay tt (-1) (1 / 2%:R) 1 1 0 2).
- exact: function_object_computes.
- by [].
- by [].
- by vm_compute.
Defined.

(** The time spans 1 and 6/5 both take three steps of 2/5. *)
Lemma time_span_quantised_witness :
  omap snd (integrate (FO := growth) Euler 5 (stepper (2%:R / 5%:R)) 1 1 0)
  = omap snd (integrate (FO := growth) Euler 5 (stepper (2%:R / 5%:R))
                (6%:R / 5%:R) 1 0).
Proof.
apply: (@time_span_quantised _ _ _ growth (fun x => x) Euler 5
          (stepper (2%:R / 5%:R)) 1 (6%:R / 5%:R) 1 0).
- by left.
- exact: function_object_computes.
- by [].
- by [].
- by [].
- by vm_compute.
Defined.

Lemma time_rescaling_witness :
  omap snd (integrate (FO := slow_growth) RungeKutta 4
              (mkNumericalIntegration (2%:R * (1 / 2%:R)) tt)
              (2%:R * 1) 1 0)
  = omap snd (integrate (FO := growth) RungeKutta 4
                (mkNumericalIntegration (1 / 2%:R) tt) 1 1 0).
Proof.
apply: (@time_rescaling _ _ _ growth _ slow_growth (fun x => x) 2%:R
          (1 / 2%:R) 1 RungeKutta 4 tt tt 1 0).
- by [].
- by right.
- exact: function_object_computes.
- exact: function_object_computes.
Defined.

Lemma test_equation_stability_witness :
  exists2 r : rat^o,
    omap snd (integrate (FO := decay) RungeKutta 2
                (mkNumericalIntegration (1 / 2%:R) tt) 1 1 0) = Some r
    & `|r : rat| <= `|1 : rat|.
Proof.
apply: (@test_equation_stability _ _ decay RungeKutta tt (-1) (1 / 2%:R)
          1 1 0 2).
- by right.
- exact: function_object_computes.
- by [].
- by [].
- by [].
- by vm_compute.
Defined.

(** With the step size 0 the time span never decreases. *)
Lemma stalled_span_never_returns_witness :
  integrate (FO := growth) Euler 50 (stepper 0) 1 1 0 = None.
Proof.
apply: (@stalled_span_never_returns _ _ _ _ _ growth Euler 50 (stepper 0)
          1 1 0).
- by left.
- exact: subr0.
- by [].
Defined.

End RationalChecks.

Section DoubleChecks.

#[local] Existing Instance double_scalar.
#[local] Existing Instance double_value.

(** An Euler and an RK4 integrator of different functor types, from
    different states, over the same span with the same step size. *)
Lemma iteration_count_independent_witness :
  omap fst (ForwardEuler (FO := counting_functor (fun x : float => x)) 10
              (mkNumericalIntegration 0.5%float 0) 1%float 1%float 0%float)
  = omap fst (RK4 (FO := function_object (fun _ : float => 1%float)) 10
                (mkNumericalIntegration 0.5%float tt) 1%float
                3%float 5%float).
Proof.
have Hh: h (mkNumericalIntegration 0.5%float 0)
         = h (mkNumericalIntegration 0.5%float tt) by [].
by case: (@iteration_count_independent _ _ _ _ _
            (counting_functor (fun x : float => x)) _ _ _
            (function_object (fun _ : float => 1%float)) 10
            (mkNumericalIntegration 0.5%float 0)
            (mkNumericalIntegration 0.5%float tt)
            1%float 1%float 3%float 0%float 5%float Hh).
Defined.

Lemma quarter_steps : exits_after 0.25%float 0.5%float 2.
Proof. by split=> [[|[|k]]|]. Qed.

(** Two Euler steps of size 1/4 from 1 with [f(x) = x] call the functor
    at 1 and at 1.25. *)
Example double_euler_log :
  ForwardEuler (FO := recording_functor (fun x : float => x)) 5
    (mkNumericalIntegration 0.25%float [::]) 0.5%float 1%float 0%float
  = Some (2, (mkNumericalIntegration 0.25%float [:: 1%float; 1.25%float],
              1.5625%float)).
Proof. by vm_compute. Qed.

Lemma euler_call_sequence_witness :
  ForwardEuler (FO := recording_functor (fun x : float => x)) 5
    (mkNumericalIntegration 0.25%float [::]) 0.5%float 1%float 0%float
  = Some (2, (mkNumericalIntegration 0.25%float
                (thread_calls (FO := recording_functor (fun x : float => x))
                   [::] (traject (euler_step (fun x => x) 0.25%float)
                           1%float 2)),
              iter 2 (euler_step (fun x => x) 0.25%float) 1%float)).
Proof.
apply: (@euler_call_sequence _ _ _ _ _
          (recording_functor (fun x : float => x)) (fun x => x) 5
          (mkNumericalIntegration 0.25%float [::]) 0.5%float 1%float 0%float
          2).
- exact: recording_functor_computes.
- exact: quarter_steps.
- by [].
Defined.

(** One RK4 step of size 1/4 from 1 with [f(x) = x] calls the functor at
    1, 1.125, 1.140625 and 1.28515625. *)
Example double_rk4_log :
  omap (fun r => f r.2.1)
    (RK4 (FO := recording_functor (fun x : float => x)) 5
       (mkNumericalIntegration 0.25%float [::]) 0.25%float 1%float 0%float)
  = Some [:: 1%float; 1.125%float; 1.140625%float; 1.28515625%float].
Proof. by vm_compute. Qed.

Lemma rk4_call_sequence_witness :
  RK4 (FO := recording_functor (fun x : float => x)) 5
    (mkNumericalIntegration 0.25%float [::]) 0.5%float 1%float 0%float
  = Some (2, (mkNumericalIntegration 0.25%float
                (thread_calls (FO := recording_functor (fun x : float => x))
                   [::]
                   (flatten [seq rk4_points (fun x => x) 0.25%float y
                            | y <- traject (rk4_step (fun x => x) 0.25%float)
                                     1%float 2])),
              iter 2 (rk4_step (fun x => x) 0.25%float) 1%float)).
Proof.
apply: (@rk4_call_sequence _ _ _ _ _
          (recording_functor (fun x : float => x)) (fun x => x) 5
          (mkNumericalIntegration 0.25%float [::]) 0.5%float 1%float 0%float
          2).
- exact: recording_functor_computes.
- exact: quarter_steps.
- by [].
Defined.

Lemma functor_call_count_witness :
  omap (fun r => f r.2.1)
       (ForwardEuler (FO := counting_functor (fun x : float => x)) 5
          (mkNumericalIntegration 0.25%float 3) 0.5%float 1%float 0%float)
  = Some (3 + 2) /\
  omap (fun r => f r.2.1)
       (RK4 (FO := counting_functor (fun x : float => x)) 5
          (mkNumericalIntegration 0.25%float 3) 0.5%float 1%float 0%float)
  = Some (3 + 4 * 2).
Proof.
apply: (@functor_call_count _ _ _ _ (fun x : float => x) 5 0.25%float
          0.5%float 3 1%float 0%float 2).
- exact: quarter_steps.
- by [].
Defined.

Lemma double_infinite_span_witness :
  integrate (FO := function_object (fun x : float => x)) Euler 100
    (mkNumericalIntegration 0.1%float tt) infinity 1%float 0%float
  = None.
Proof.
apply: (@double_infinite_span _ _ _ (function_object (fun x : float => x))
          Euler 100 0.1%float tt 1%float 0%float).
- by left.
- by [].
Defined.

Lemma double_zero_step_witness :
  integrate (FO := function_object (fun x : float => x)) RungeKutta 100
    (mkNumericalIntegration (- 0)%float tt) 1%float 1%float 0%float
  = None.
Proof.
apply: (@double_zero_step _ _ _ (function_object (fun x : float => x))
          RungeKutta 100 (- 0)%float 1%float tt 1%float 0%float).
- by right.
- by [].
- by [].
Defined.

Lemma double_nan_span_witness :
  integrate (FO := function_object (fun x : float => x)) Euler 0
    (mkNumericalIntegration 0.1%float tt) nan 3%float 7%float
  = Some (mkNumericalIntegration 0.1%float tt, 3%float).
Proof.
apply: (@double_nan_span _ _ _ (function_object (fun x : float => x))
          Euler 0 (mkNumericalIntegration 0.1%float tt) 3%float 7%float).
by left.
Defined.

Lemma double_nonfinite_step_witness :
  omap fst (ForwardEuler (FO := function_object (fun x : float => x)) 1
              (mkNumericalIntegration nan tt) 1%float 1%float 0%float)
  = Some 1 /\
  omap fst (RK4 (FO := function_object (fun x : float => x)) 1
              (mkNumericalIntegration nan tt) 1%float 1%float 0%float)
  = Some 1.
Proof.
apply: (@double_nonfinite_step _ _ _ (function_object (fun x : float => x))
          0 nan 1%float tt 1%float 0%float).
- by [].
- by [].
Defined.

End DoubleChecks.
